(** * go-ttlcache: the sharded cache of [sharded.go]

    A shallow embedding of the sharding layer: the seeded hash [djb33], the
    router ([bucket]), the keyed operations and the fan-out operations of
    [shardedCache], its construction, and the janitor's stop channel.

    Go's [uint32] values are integers in [0, 2^32) with the wrap-around
    written out ([u32]); a key is the dynamic value seen by the type switch
    of [djb33]; run-time panics (index out of range, division by zero,
    [make] with a negative length) are a result of their own. *)

From Stdlib Require Import ZArith Lia Strings.Byte.
From stdpp Require Import base option list gmap strings.

#[local] Open Scope Z_scope.

(** ** Results of code that may panic *)

Inductive result (A : Type) : Type :=
  | Ok (a : A)
  | Panic        (* a Go run-time panic *)
  | OutOfFuel.   (* the loop bound of the model was reached *)
Arguments Ok {A} a.
Arguments Panic {A}.
Arguments OutOfFuel {A}.

#[global] Instance result_ret : MRet result := fun A a => Ok a.
#[global] Instance result_bind : MBind result := fun A B f r =>
  match r with
  | Ok a => f a
  | Panic => Panic
  | OutOfFuel => OutOfFuel
  end.

(** ** 32-bit words *)

Definition u32 (z : Z) : Z := z mod 2 ^ 32.

(** [uint32(kRaw[i])] for a byte of the key. *)
Definition byte_to_Z (b : byte) : Z := Z.of_N (Byte.to_N b).

(** ** Keys *)

Section Keys.

(** [Other] stands for the dynamic values of every type but [string] and
    [[]byte]. *)
Context {Other : Type}.

Inductive key : Type :=
  | KString (s : string)
  | KBytes (b : list byte)
  | KOther (o : Other).

(** The type switch at the head of [djb33]; [kRaw] stays [nil] when no
    case matches. *)
Definition key_bytes (k : key) : list byte :=
  match k with
  | KString s => String.list_byte_of_string s
  | KBytes b => b
  | KOther _ => []
  end.

End Keys.
Arguments key : clear implicits.

(** ** The hash [djb33] *)

(** [kRaw[i]] with Go's bounds check. *)
Definition index (kRaw : list byte) (i : Z) : result Z :=
  match kRaw !! Z.to_nat i with
  | Some b => Ok (byte_to_Z b)
  | None => Panic
  end.

(** One update [d = (d * 33) ^ uint32(b)]. *)
Definition mix (d b : Z) : Z := Z.lxor (u32 (d * 33)) b.

(** The unrolled loop [for i < l-4 { ... i += 4 }]; it yields the final
    [d] and [i]. *)
Fixpoint djb33_loop (fuel : nat) (kRaw : list byte) (l d i : Z)
  : result (Z * Z) :=
  if i <? u32 (l - 4) then
    match fuel with
    | O => OutOfFuel
    | S fuel' =>
        b0 ← index kRaw i;
        let d := mix d b0 in
        b1 ← index kRaw (u32 (i + 1));
        let d := mix d b1 in
        b2 ← index kRaw (u32 (i + 2));
        let d := mix d b2 in
        b3 ← index kRaw (u32 (i + 3));
        let d := mix d b3 in
        djb33_loop fuel' kRaw l d (u32 (i + 4))
    end
  else Ok (d, i).

(** The [switch l - i] after the loop. *)
Definition djb33_tail (kRaw : list byte) (l d i : Z) : result Z :=
  let n := u32 (l - i) in
  if n =? 1 then Ok d
  else if n =? 2 then
    b0 ← index kRaw i;
    Ok (mix d b0)
  else if n =? 3 then
    b0 ← index kRaw i;
    let d := mix d b0 in
    b1 ← index kRaw (u32 (i + 1));
    Ok (mix d b1)
  else if n =? 4 then
    b0 ← index kRaw i;
    let d := mix d b0 in
    b1 ← index kRaw (u32 (i + 1));
    let d := mix d b1 in
    b2 ← index kRaw (u32 (i + 2));
    Ok (mix d b2)
  else Ok d.

(** [return d ^ (d >> 16)]. *)
Definition finish (d : Z) : Z := Z.lxor d (Z.shiftr d 16).

Definition djb33 {Other : Type} (seed : Z) (k : key Other) : result Z :=
  let kRaw := key_bytes k in
  let l := u32 (Z.of_nat (length kRaw)) in
  let d := u32 (u32 (5381 + seed) + l) in
  let i := 0 in
  '(d, i) ← (if 4 <=? l then djb33_loop (length kRaw) kRaw l d i else Ok (d, i));
  d ← djb33_tail kRaw l d i;
  Ok (finish d).

(** ** The algorithm as the specification words it

    Full 4-byte groups first, then the 0-3 trailing bytes under the same
    update, a tail of exactly one byte left out. *)

Fixpoint reference_groups (bs : list byte) (d : Z) : Z * list byte :=
  match bs with
  | b0 :: b1 :: b2 :: b3 :: rest =>
      reference_groups rest
        (mix (mix (mix (mix d (byte_to_Z b0)) (byte_to_Z b1)) (byte_to_Z b2))
           (byte_to_Z b3))
  | _ => (d, bs)
  end.

Definition reference_tail (d : Z) (tl : list byte) : Z :=
  match tl with
  | [_] => d
  | _ => fold_left (fun d b => mix d (byte_to_Z b)) tl d
  end.

Definition djb33_reference (seed : Z) (bs : list byte) : Z :=
  let d := u32 (5381 + seed + Z.of_nat (length bs)) in
  let '(d, tl) := reference_groups bs d in
  finish (reference_tail d tl).

(** The updates of a run of bytes, in order. *)
Definition mix_all (bs : list byte) (d : Z) : Z :=
  fold_left (fun d b => mix d (byte_to_Z b)) bs d.

(** ** Shards

    The struct literal in [newShardedCache] shows the two fields of [cache]
    used here; the rest of [cache.go] is taken from the specification
    where a definition says so. *)

Definition duration := Z.   (* time.Duration *)
Definition instant := Z.    (* a reading of the clock *)
Definition error := option string.   (* [None] is Go's nil error *)
Definition chan := nat.     (* the identity of a channel made by [make] *)

#[global] Instance byte_eq_dec : EqDecision byte := Byte.byte_eq_dec.
#[global] Instance byte_countable : Countable byte :=
  inj_countable Byte.to_N Byte.of_N Byte.of_to_N.

#[global] Instance key_eq_dec {Other} `{EqDecision Other} :
  EqDecision (key Other).
Proof. solve_decision. Defined.

Definition key_to_sum {Other} (k : key Other)
  : string + (list byte + Other) :=
  match k with
  | KString s => inl s
  | KBytes b => inr (inl b)
  | KOther o => inr (inr o)
  end.

Definition key_of_sum {Other} (x : string + (list byte + Other))
  : key Other :=
  match x with
  | inl s => KString s
  | inr (inl b) => KBytes b
  | inr (inr o) => KOther o
  end.

#[global] Program Instance key_countable {Other} `{Countable Other} :
  Countable (key Other) := inj_countable' key_to_sum key_of_sum _.
Next Obligation. by intros Other ? ? [s | b | o]. Qed.

(** Modelled from the spec: the type [Item] of [cache.go], an entry
    "(value: V, expiration: instant | never)". *)
Record Item (V : Type) : Type := mkItem {
  Object : V;
  Expiration : option instant;
}.
Arguments mkItem {V} _ _.
Arguments Object {V} _.
Arguments Expiration {V} _.

Record cache (Other V : Type) `{Countable Other} : Type := mkCache {
  defaultExpiration : duration;
  items : gmap (key Other) (Item V);
}.
Arguments mkCache {Other V _ _} _ _.
Arguments defaultExpiration {Other V _ _} _.
Arguments items {Other V _ _} _.

(** The keyed operations of one shard, [cache.go]'s [Set], [Add],
    [Replace], [Get] and [Delete]: any functions of the shard they are
    called on. [now] is the clock as the shard reads it during the call;
    each returns the shard as the call leaves it. *)
Class Primitive (Other V : Type) `{Countable Other} := {
  cache_Set : instant -> key Other -> V -> duration ->
              cache Other V -> cache Other V;
  cache_Add : instant -> key Other -> V -> duration ->
              cache Other V -> error * cache Other V;
  cache_Replace : instant -> key Other -> V -> duration ->
                  cache Other V -> error * cache Other V;
  cache_Get : instant -> key Other -> cache Other V ->
              (option V * bool) * cache Other V;
  cache_Delete : key Other -> cache Other V -> cache Other V;
}.

Record shardedJanitor : Type := mkJanitor {
  Interval : duration;
  stop : option chan;     (* [None] is the nil channel *)
}.

Record shardedCache (Other V : Type) `{Countable Other} : Type := mkSharded {
  seed : Z;
  m : Z;
  cs : list (cache Other V);
  janitor : option shardedJanitor;
}.
Arguments mkSharded {Other V _ _} _ _ _ _.
Arguments seed {Other V _ _} _.
Arguments m {Other V _ _} _.
Arguments cs {Other V _ _} _.
Arguments janitor {Other V _ _} _.

Section Sharded.

Context {Other V : Type} `{Countable Other}.

#[local] Abbreviation key := (key Other).
#[local] Abbreviation cache := (cache Other V).
#[local] Abbreviation shardedCache := (shardedCache Other V).

(** Modelled from the spec: an entry with a concrete instant "is
    considered expired once the current time is >= that instant"; one that
    never expires is never purged. *)
Definition expired (now : instant) (it : Item V) : bool :=
  match Expiration it with
  | Some t => t <=? now
  | None => false
  end.

(** Modelled from the spec: the shard's [DeleteExpired], "purge all expired
    entries from this shard only". *)
Definition cache_DeleteExpired (now : instant) (c : cache) : cache :=
  mkCache (defaultExpiration c)
    (filter (fun kv => expired now kv.2 = false) (items c)).

(** Modelled from the spec: the shard's [Items], a "full snapshot of this
    shard's table (may include stale-expired entries)". *)
Definition cache_Items (c : cache) : gmap key (Item V) := items c.

(** Modelled from the spec: the shard's [Flush], "remove all entries". *)
Definition cache_Flush (c : cache) : cache :=
  mkCache (defaultExpiration c) ∅.

(** *** The router

    The methods of [shardedCache] are prefixed [sc_], those of a shard
    [cache_]. *)

(** [sc.cs[djb33(sc.seed, k) % sc.m]]: the shard handle is its position in
    [cs] together with the shard found there. *)
Definition bucket (sc : shardedCache) (k : key) : result (nat * cache) :=
  h ← djb33 (seed sc) k;
  if m sc =? 0 then Panic   (* integer divide by zero *)
  else
    let i := Z.to_nat (h mod m sc) in
    match cs sc !! i with
    | Some c => Ok (i, c)
    | None => Panic         (* index out of range *)
    end.

(** A router whose shard count is at least 1 and whose table holds that
    many shards, as [newShardedCache] builds it. *)
Definition routable (sc : shardedCache) : Prop :=
  1 <= m sc /\ m sc <= Z.of_nat (length (cs sc)).

(** The shard behind a handle after a call on it. *)
Definition with_shard (sc : shardedCache) (i : nat) (c : cache)
  : shardedCache :=
  mkSharded (seed sc) (m sc) (<[i := c]> (cs sc)) (janitor sc).

Context `{!Primitive Other V}.

Definition sc_Set (now : instant) (k : key) (x : V) (d : duration)
  (sc : shardedCache) : result shardedCache :=
  '(i, c) ← bucket sc k;
  Ok (with_shard sc i (cache_Set now k x d c)).

Definition sc_Add (now : instant) (k : key) (x : V) (d : duration)
  (sc : shardedCache) : result (error * shardedCache) :=
  '(i, c) ← bucket sc k;
  let '(err, c') := cache_Add now k x d c in
  Ok (err, with_shard sc i c').

Definition sc_Replace (now : instant) (k : key) (x : V) (d : duration)
  (sc : shardedCache) : result (error * shardedCache) :=
  '(i, c) ← bucket sc k;
  let '(err, c') := cache_Replace now k x d c in
  Ok (err, with_shard sc i c').

Definition sc_Get (now : instant) (k : key) (sc : shardedCache)
  : result ((option V * bool) * shardedCache) :=
  '(i, c) ← bucket sc k;
  let '(r, c') := cache_Get now k c in
  Ok (r, with_shard sc i c').

Definition sc_Delete (k : key) (sc : shardedCache) : result shardedCache :=
  '(i, c) ← bucket sc k;
  Ok (with_shard sc i (cache_Delete k c)).

(** *** Fan-out operations: [for _, v := range sc.cs] *)

Definition sc_DeleteExpired (now : instant) (sc : shardedCache) : shardedCache :=
  mkSharded (seed sc) (m sc) (cache_DeleteExpired now <$> cs sc) (janitor sc).

Definition sc_Items (sc : shardedCache) : list (gmap key (Item V)) :=
  cache_Items <$> cs sc.

Definition sc_Flush (sc : shardedCache) : shardedCache :=
  mkSharded (seed sc) (m sc) (cache_Flush <$> cs sc) (janitor sc).

End Sharded.

(** ** Construction

    The constructors read two random sources, write to standard error,
    start a goroutine and register a finalizer, and [make] allocates the
    table of shards. These effects are threaded through a [World]. *)

(** A goroutine started by [go j.Run(sc)]. *)
Inductive goroutine : Type :=
  | GoRun (j : shardedJanitor).

(** A finalizer registered on the facade by [runtime.SetFinalizer]. *)
Inductive finalizer : Type :=
  | FinStopShardedJanitor.

Record World : Type := mkWorld {
  (** the outcome of the n-th [rand.Int(rand.Reader, max)]: a number, or
      [None] when reading the system source fails *)
  rand_Reader : nat -> Z -> option Z;
  rand_reads : nat;
  (** the n-th [insecurerand.Uint32()] *)
  insecure_source : nat -> Z;
  insecure_reads : nat;
  (** what was written to [os.Stderr], oldest first *)
  stderr : list string;
  goroutines : list goroutine;
  finalizers : list finalizer;
  (** the longest [[]*cache] that [make] allocates here: for a longer one
      it panics (len out of range) or memory runs out *)
  make_limit : N;
}.

Definition rand_Int (max : Z) (w : World) : option Z * World :=
  (rand_Reader w (rand_reads w) max,
   mkWorld (rand_Reader w) (S (rand_reads w)) (insecure_source w)
     (insecure_reads w) (stderr w) (goroutines w) (finalizers w)
     (make_limit w)).

Definition insecurerand_Uint32 (w : World) : Z * World :=
  (insecure_source w (insecure_reads w),
   mkWorld (rand_Reader w) (rand_reads w) (insecure_source w)
     (S (insecure_reads w)) (stderr w) (goroutines w) (finalizers w)
     (make_limit w)).

Definition Stderr_Write (s : string) (w : World) : World :=
  mkWorld (rand_Reader w) (rand_reads w) (insecure_source w)
    (insecure_reads w) (stderr w ++ [s]) (goroutines w) (finalizers w)
    (make_limit w).

Definition go (g : goroutine) (w : World) : World :=
  mkWorld (rand_Reader w) (rand_reads w) (insecure_source w)
    (insecure_reads w) (stderr w) (goroutines w ++ [g]) (finalizers w)
    (make_limit w).

Definition SetFinalizer (f : finalizer) (w : World) : World :=
  mkWorld (rand_Reader w) (rand_reads w) (insecure_source w)
    (insecure_reads w) (stderr w) (goroutines w) (finalizers w ++ [f])
    (make_limit w).

Definition u64 (z : Z) : Z := z mod 2 ^ 64.

Definition MaxUint32 : Z := 2 ^ 32 - 1.

Definition seed_warning : string :=
  "WARNING: go-cache's newShardedCache failed to read from the system CSPRNG (/dev/urandom or equivalent.) Your system's security may be compromised. Continuing with an insecure seed."
  ++ String (Ascii.ascii_of_nat 10) EmptyString.

Section Construction.

Context {Other V : Type} `{Countable Other}.

#[local] Abbreviation shardedCache := (shardedCache Other V).

Definition newShardedCache (n : Z) (de : duration) (w : World)
  : result (shardedCache * World) :=
  let max := u64 MaxUint32 in
  let '(rnd, w) := rand_Int max w in
  let '(seed, w) :=
    match rnd with
    | None =>                              (* err != nil *)
        let w := Stderr_Write seed_warning w in
        insecurerand_Uint32 w
    | Some rnd => (u32 (u64 rnd), w)
    end in
  if (n <? 0) || (Z.of_N (make_limit w) <? n)
  then Panic                               (* makeslice: len out of range *)
  else
    Ok (mkSharded seed (u32 n)
          (replicate (Z.to_nat n) (mkCache de ∅)) None,
        w).

Definition runShardedJanitor (sc : shardedCache) (ci : duration) (w : World)
  : shardedCache * World :=
  let j := mkJanitor ci None in
  (mkSharded (seed sc) (m sc) (cs sc) (Some j), go (GoRun j) w).

Definition unexportedNewSharded (defaultExpiration cleanupInterval : duration)
  (shards : Z) (w : World) : result (shardedCache * World) :=
  let defaultExpiration :=
    if defaultExpiration =? 0 then -1 else defaultExpiration in
  '(sc, w) ← newShardedCache shards defaultExpiration w;
  if 0 <? cleanupInterval then
    let '(sc, w) := runShardedJanitor sc cleanupInterval w in
    let w := SetFinalizer FinStopShardedJanitor w in
    Ok (sc, w)
  else Ok (sc, w).

End Construction.

(** ** The janitor and its stop channel

    [Run] executes in a goroutine of its own and [stopShardedJanitor] in
    the caller's, so the two are a transition system. [j.stop] is made by
    [make(chan bool)], a channel without buffer: a send on it completes
    only together with a receive, and a send on the nil channel never
    does. *)

(** Where the goroutine of [Run] stands. *)
Inductive run_state : Type :=
  | RunSpawned     (* started by [go], before [j.stop = make(chan bool)] *)
  | RunSelect      (* in the [select] of the loop *)
  | RunReturned.   (* after [return] *)

(** Where one call of [stopShardedJanitor] stands. *)
Inductive signal_state : Type :=
  | SignalCalled                      (* before the send statement *)
  | SignalSending (ch : option chan)  (* blocked in [ch <- true] *)
  | SignalPanicked                    (* [sc.janitor] is nil *)
  | SignalReturned.                   (* the send completed *)

Record system (Other V : Type) `{Countable Other} : Type := mkSystem {
  sys_sc : shardedCache Other V;
  sys_run : run_state;
  sys_signals : list signal_state;
  sys_chans : chan;     (* the next channel [make] returns *)
}.
Arguments mkSystem {Other V _ _} _ _ _ _.
Arguments sys_sc {Other V _ _} _.
Arguments sys_run {Other V _ _} _.
Arguments sys_signals {Other V _ _} _.
Arguments sys_chans {Other V _ _} _.

Section Janitor.

Context {Other V : Type} `{Countable Other}.

#[local] Abbreviation shardedCache := (shardedCache Other V).
#[local] Abbreviation system := (system Other V).

(** [j.stop = ch] for the janitor the cache points to. *)
Definition set_stop (sc : shardedCache) (ch : chan) : shardedCache :=
  mkSharded (seed sc) (m sc) (cs sc)
    (match janitor sc with
     | Some j => Some (mkJanitor (Interval j) (Some ch))
     | None => None
     end).

(** The operand [sc.janitor.stop] of the send in [stopShardedJanitor]. *)
Definition stop_operand (sc : shardedCache) : signal_state :=
  match janitor sc with
  | Some j => SignalSending (stop j)
  | None => SignalPanicked
  end.

Inductive step : system -> system -> Prop :=
  (** [Run]: [j.stop = make(chan bool)], then enter the loop *)
  | Run_make sc sigs n :
      step (mkSystem sc RunSpawned sigs n)
           (mkSystem (set_stop sc n) RunSelect sigs (S n))
  (** [Run]: [case <-tick: sc.DeleteExpired()] *)
  | Run_tick sc sigs n now :
      step (mkSystem sc RunSelect sigs n)
           (mkSystem (sc_DeleteExpired now sc) RunSelect sigs n)
  (** [stopShardedJanitor]: the channel operand is evaluated *)
  | stopShardedJanitor_operand sc r sigs n i :
      sigs !! i = Some SignalCalled ->
      step (mkSystem sc r sigs n)
           (mkSystem sc r (<[i := stop_operand sc]> sigs) n)
  (** [case <-j.stop: return] together with the send of a caller blocked
      on that channel *)
  | Run_stop sc sigs n i j ch :
      janitor sc = Some j -> stop j = Some ch ->
      sigs !! i = Some (SignalSending (Some ch)) ->
      step (mkSystem sc RunSelect sigs n)
           (mkSystem sc RunReturned (<[i := SignalReturned]> sigs) n).

(** Any number of steps. *)
Inductive steps : system -> system -> Prop :=
  | steps_refl s : steps s s
  | steps_step s1 s2 s3 : step s1 s2 -> steps s2 s3 -> steps s1 s3.

(** Signals received so far: none while [Run] has not returned, and never
    two. *)
Definition one_receive (s : system) : Prop :=
  (sys_run s <> RunReturned ->
   forall i, sys_signals s !! i <> Some SignalReturned)
  /\ (forall i j, sys_signals s !! i = Some SignalReturned ->
                  sys_signals s !! j = Some SignalReturned -> i = j).

End Janitor.

(** ** Calls on the facade

    A call of one method of [shardedCache] with its arguments, what it
    returns, and a sequence of calls run one after the other. *)

Inductive call (Other V : Type) : Type :=
  | CallSet (now : instant) (k : key Other) (x : V) (d : duration)
  | CallAdd (now : instant) (k : key Other) (x : V) (d : duration)
  | CallReplace (now : instant) (k : key Other) (x : V) (d : duration)
  | CallGet (now : instant) (k : key Other)
  | CallDelete (k : key Other)
  | CallDeleteExpired (now : instant)
  | CallItems
  | CallFlush.
Arguments CallSet {Other V} _ _ _ _.
Arguments CallAdd {Other V} _ _ _ _.
Arguments CallReplace {Other V} _ _ _ _.
Arguments CallGet {Other V} _ _.
Arguments CallDelete {Other V} _.
Arguments CallDeleteExpired {Other V} _.
Arguments CallItems {Other V}.
Arguments CallFlush {Other V}.

Inductive output (Other V : Type) `{Countable Other} : Type :=
  | OutUnit
  | OutError (e : error)
  | OutGet (x : option V) (found : bool)
  | OutItems (tables : list (gmap (key Other) (Item V))).
Arguments OutUnit {Other V _ _}.
Arguments OutError {Other V _ _} _.
Arguments OutGet {Other V _ _} _ _.
Arguments OutItems {Other V _ _} _.

(** The key of a keyed call. *)
Definition call_key {Other V : Type} (c : call Other V)
  : option (key Other) :=
  match c with
  | CallSet _ k _ _ | CallAdd _ k _ _ | CallReplace _ k _ _
  | CallGet _ k | CallDelete k => Some k
  | CallDeleteExpired _ | CallItems | CallFlush => None
  end.

(** A call that hands the shard no key but a string. The table of a shard
    is a Go [map[K]Item[V]]: with an interface type for [K], a key holding
    a [[]byte] (or another unhashable value) makes every access to it
    panic, a string never. *)
Definition string_keyed {Other V : Type} (c : call Other V) : Prop :=
  match call_key c with
  | Some (KBytes _) | Some (KOther _) => False
  | Some (KString _) | None => True
  end.

Section Calls.

Context {Other V : Type} `{Countable Other} `{!Primitive Other V}.

#[local] Abbreviation shardedCache := (shardedCache Other V).

Definition exec1 (c : call Other V) (sc : shardedCache)
  : result (output Other V * shardedCache) :=
  match c with
  | CallSet now k x d =>
      sc' ← sc_Set now k x d sc; Ok (OutUnit, sc')
  | CallAdd now k x d =>
      '(e, sc') ← sc_Add now k x d sc; Ok (OutError e, sc')
  | CallReplace now k x d =>
      '(e, sc') ← sc_Replace now k x d sc; Ok (OutError e, sc')
  | CallGet now k =>
      '(r, sc') ← sc_Get now k sc; Ok (OutGet r.1 r.2, sc')
  | CallDelete k =>
      sc' ← sc_Delete k sc; Ok (OutUnit, sc')
  | CallDeleteExpired now => Ok (OutUnit, sc_DeleteExpired now sc)
  | CallItems => Ok (OutItems (sc_Items sc), sc)
  | CallFlush => Ok (OutUnit, sc_Flush sc)
  end.

(** What a keyed call does on the shard it was routed to: the method of
    the shard with the arguments of the call. *)
Definition shard_call (c : call Other V) (s : cache Other V)
  : output Other V * cache Other V :=
  match c with
  | CallSet now k x d => (OutUnit, cache_Set now k x d s)
  | CallAdd now k x d =>
      let '(e, s') := cache_Add now k x d s in (OutError e, s')
  | CallReplace now k x d =>
      let '(e, s') := cache_Replace now k x d s in (OutError e, s')
  | CallGet now k =>
      let '(r, s') := cache_Get now k s in (OutGet r.1 r.2, s')
  | CallDelete k => (OutUnit, cache_Delete k s)
  | CallDeleteExpired _ | CallItems | CallFlush => (OutUnit, s)
  end.

Fixpoint exec (calls : list (call Other V)) (sc : shardedCache)
  : result shardedCache :=
  match calls with
  | [] => Ok sc
  | c :: calls => '(_, sc') ← exec1 c sc; exec calls sc'
  end.

End Calls.

(** ** A shard primitive for the examples

    Modelled from the spec: the keyed operations of section 6. A duration
    of 0 stands for "use configured default" and a negative one for "never
    expire", the encoding [unexportedNewSharded] relies on when it turns a
    default of 0 into -1. *)

Section SpecPrimitive.

Context {Other V : Type} `{Countable Other}.

#[local] Abbreviation cache := (cache Other V).

Definition expiration_of (now : instant) (c : cache) (d : duration)
  : option instant :=
  let d := if d =? 0 then defaultExpiration c else d in
  if 0 <? d then Some (now + d) else None.

(** An entry that is present and not expired. *)
Definition live (now : instant) (k : key Other) (c : cache)
  : option (Item V) :=
  match items c !! k with
  | Some it => if expired now it then None else Some it
  | None => None
  end.

Definition spec_Set (now : instant) (k : key Other) (x : V) (d : duration)
  (c : cache) : cache :=
  mkCache (defaultExpiration c)
    (<[k := mkItem x (expiration_of now c d)]> (items c)).

Definition spec_Add (now : instant) (k : key Other) (x : V) (d : duration)
  (c : cache) : error * cache :=
  match live now k c with
  | Some _ => (Some "key exists"%string, c)
  | None => (None, spec_Set now k x d c)
  end.

Definition spec_Replace (now : instant) (k : key Other) (x : V)
  (d : duration) (c : cache) : error * cache :=
  match live now k c with
  | Some _ => (None, spec_Set now k x d c)
  | None => (Some "key not found"%string, c)
  end.

Definition spec_Get (now : instant) (k : key Other) (c : cache)
  : (option V * bool) * cache :=
  match live now k c with
  | Some it => ((Some (Object it), true), c)
  | None => ((None, false), c)
  end.

Definition spec_Delete (k : key Other) (c : cache) : cache :=
  mkCache (defaultExpiration c) (delete k (items c)).

Definition spec_primitive : Primitive Other V :=
  {| cache_Set := spec_Set;
     cache_Add := spec_Add;
     cache_Replace := spec_Replace;
     cache_Get := spec_Get;
     cache_Delete := spec_Delete |}.

End SpecPrimitive.
(** * Properties of [djb33] *)

Section Djb33Facts.

Lemma u32_small z : 0 <= z < 2 ^ 32 -> u32 z = z.
Proof. intros. unfold u32. by apply Z.mod_small. Qed.

Lemma u32_range z : 0 <= u32 z < 2 ^ 32.
Proof. unfold u32. apply Z.mod_pos_bound. lia. Qed.

Lemma u32_le z : 0 <= z -> u32 z <= z.
Proof. intros. unfold u32. apply Z.mod_le; lia. Qed.

Lemma u32_add_l a b : u32 (u32 a + b) = u32 (a + b).
Proof. unfold u32. by rewrite Zplus_mod_idemp_l. Qed.

Lemma index_of_nat (kRaw : list byte) n b :
  kRaw !! n = Some b -> index kRaw (Z.of_nat n) = Ok (byte_to_Z b).
Proof. intros H. unfold index. by rewrite Nat2Z.id, H. Qed.

Lemma mix_all_snoc (kRaw : list byte) n b d :
  kRaw !! n = Some b ->
  mix_all (take (S n) kRaw) d = mix (mix_all (take n kRaw) d) (byte_to_Z b).
Proof.
  intros H. rewrite (take_S_r _ _ _ H). unfold mix_all.
  by rewrite fold_left_app.
Qed.

(** The byte at an index below the (wrapped) length exists. *)
Lemma in_range (kRaw : list byte) (l : Z) (n : nat) :
  l <= Z.of_nat (length kRaw) -> Z.of_nat n < l ->
  exists b, kRaw !! n = Some b.
Proof. intros Hl Hn. apply lookup_lt_is_Some_2. lia. Qed.

(** One indexed update keeps the invariant "[d] is the hash state after
    the first [n] bytes". *)
Ltac step_byte Hl n :=
  let b := fresh "b" in
  let Hb := fresh "Hb" in
  destruct (in_range _ _ n Hl) as [b Hb]; [lia |];
  try (replace (u32 (Z.of_nat n)) with (Z.of_nat n)
        by (symmetry; apply u32_small; lia));
  rewrite (index_of_nat _ _ _ Hb); cbn [mbind result_bind];
  rewrite <- (mix_all_snoc _ _ _ _ Hb).

Lemma djb33_loop_ok fuel (kRaw : list byte) l d0 :
  forall n,
  4 <= l < 2 ^ 32 -> l <= Z.of_nat (length kRaw) ->
  Z.of_nat n <= l - 1 -> l - 4 - Z.of_nat n <= 4 * Z.of_nat fuel ->
  exists n',
    djb33_loop fuel kRaw l (mix_all (take n kRaw) d0) (Z.of_nat n)
    = Ok (mix_all (take n' kRaw) d0, Z.of_nat n')
    /\ l - 4 <= Z.of_nat n' <= l - 1.
Proof.
  induction fuel as [|fuel IH]; intros n Hl4 Hl Hn Hfuel.
  - exists n. cbn. rewrite u32_small by lia.
    destruct (Z.ltb_spec (Z.of_nat n) (l - 4)); [lia |]. split; [done | lia].
  - cbn [djb33_loop]. rewrite (u32_small (l - 4)) by lia.
    destruct (Z.ltb_spec (Z.of_nat n) (l - 4)) as [Hlt | Hge].
    + replace (Z.of_nat n + 1) with (Z.of_nat (S n)) by lia.
      replace (Z.of_nat n + 2) with (Z.of_nat (S (S n))) by lia.
      replace (Z.of_nat n + 3) with (Z.of_nat (S (S (S n)))) by lia.
      replace (Z.of_nat n + 4) with (Z.of_nat (S (S (S (S n))))) by lia.
      step_byte Hl n. step_byte Hl (S n).
      step_byte Hl (S (S n)). step_byte Hl (S (S (S n))).
      rewrite (u32_small (Z.of_nat (S (S (S (S n)))))) by lia.
      apply IH; lia.
    + exists n. split; [done | lia].
Qed.

Lemma djb33_tail_ok (kRaw : list byte) l d0 n :
  0 <= l < 2 ^ 32 -> l <= Z.of_nat (length kRaw) ->
  1 <= l - Z.of_nat n <= 4 ->
  djb33_tail kRaw l (mix_all (take n kRaw) d0) (Z.of_nat n)
  = Ok (mix_all (take (Z.to_nat (l - 1)) kRaw) d0).
Proof.
  intros Hl32 Hl Hn. unfold djb33_tail.
  rewrite (u32_small (l - Z.of_nat n)) by lia.
  replace (Z.of_nat n + 1) with (Z.of_nat (S n)) by lia.
  replace (Z.of_nat n + 2) with (Z.of_nat (S (S n))) by lia.
  assert (l - Z.of_nat n = 1 \/ l - Z.of_nat n = 2 \/ l - Z.of_nat n = 3
          \/ l - Z.of_nat n = 4) as [E | [E | [E | E]]] by lia;
    rewrite E; cbn [Z.eqb Pos.eqb].
  - by replace (Z.to_nat (l - 1)) with n by lia.
  - replace (Z.to_nat (l - 1)) with (S n) by lia. by step_byte Hl n.
  - replace (Z.to_nat (l - 1)) with (S (S n)) by lia.
    step_byte Hl n. by step_byte Hl (S n).
  - replace (Z.to_nat (l - 1)) with (S (S (S n))) by lia.
    step_byte Hl n. step_byte Hl (S n). by step_byte Hl (S (S n)).
Qed.

Context {Other : Type}.

(** What [djb33] computes, for a key of any length: the updates of the
    first [l - 1] bytes, [l] the length as a [uint32]. *)
Lemma djb33_closed_form (seed : Z) (k : key Other) :
  let kRaw := key_bytes k in
  let l := u32 (Z.of_nat (length kRaw)) in
  djb33 seed k
  = Ok (finish (mix_all (take (Z.to_nat (l - 1)) kRaw)
                  (u32 (5381 + seed + l)))).
Proof.
  intros kRaw l. unfold djb33. fold kRaw. fold l. rewrite u32_add_l.
  set (d0 := u32 (5381 + seed + l)).
  assert (Hl32 : 0 <= l < 2 ^ 32) by apply u32_range.
  assert (Hl : l <= Z.of_nat (length kRaw)) by (apply u32_le; lia).
  destruct (Z.leb_spec 4 l) as [H4 | H4].
  - destruct (djb33_loop_ok (length kRaw) kRaw l d0 0%nat)
      as (n' & Hloop & Hn'); [lia | lia | lia | lia |].
    rewrite take_0 in Hloop. change (mix_all [] d0) with d0 in Hloop.
    change (Z.of_nat 0) with 0 in Hloop. rewrite Hloop.
    cbn [mbind result_bind]. rewrite djb33_tail_ok by lia. done.
  - cbn [mbind result_bind].
    destruct (Z.eq_dec l 0) as [E0 | N0].
    + rewrite E0. done.
    + change d0 with (mix_all (take 0 kRaw) d0) at 1.
      change 0 with (Z.of_nat 0) at 1.
      rewrite djb33_tail_ok by lia. done.
Qed.

End Djb33Facts.

(** * The hash against the specification's wording *)

Section ReferenceFacts.

(** [reference_groups] consumes a prefix whose length is a multiple of 4
    and leaves fewer than 4 bytes. *)
Lemma reference_groups_split (n : nat) :
  forall (bs : list byte) (d : Z),
  (length bs <= n)%nat ->
  exists pre,
    bs = pre ++ (reference_groups bs d).2
    /\ (reference_groups bs d).1 = mix_all pre d
    /\ (length (reference_groups bs d).2 < 4)%nat
    /\ (length pre mod 4 = 0)%nat.
Proof.
  induction n as [|n IH]; intros bs d Hn.
  - destruct bs; [|cbn in Hn; lia]. exists []. cbn. repeat split; lia.
  - destruct bs as [|b0 [|b1 [|b2 [|b3 rest]]]];
      try (exists []; cbn; repeat split; lia).
    destruct (IH rest
      (mix (mix (mix (mix d (byte_to_Z b0)) (byte_to_Z b1)) (byte_to_Z b2))
         (byte_to_Z b3))) as (pre & Hpre & Hd & Htl & Hmod).
    { cbn in Hn. lia. }
    exists (b0 :: b1 :: b2 :: b3 :: pre).
    cbn [reference_groups]. repeat split.
    + cbn. by rewrite <- Hpre.
    + by rewrite Hd.
    + done.
    + change (length (b0 :: b1 :: b2 :: b3 :: pre)) with (4 + length pre)%nat.
      rewrite <- Nat.Div0.add_mod_idemp_r, Hmod. done.
Qed.

(** The reference leaves out the final byte exactly when the length is 1
    modulo 4. *)
Lemma djb33_reference_tail_1 (seed : Z) (bs : list byte) :
  (length bs mod 4 = 1)%nat ->
  djb33_reference seed bs
  = finish (mix_all (removelast bs) (u32 (5381 + seed + Z.of_nat (length bs)))).
Proof.
  intros Hmod. unfold djb33_reference.
  set (d0 := u32 (5381 + seed + Z.of_nat (length bs))).
  destruct (reference_groups_split (length bs) bs d0) as
    (pre & Hbs & Hd & Htl & Hpre); [done |].
  destruct (reference_groups bs d0) as [d tl]. cbn [fst snd] in *.
  assert (Hlen : length bs = (length pre + length tl)%nat)
    by (rewrite Hbs at 1; apply length_app).
  assert (Htl1 : length tl = 1%nat).
  { rewrite Hlen in Hmod.
    rewrite <- Nat.Div0.add_mod_idemp_l, Hpre in Hmod. cbn [Nat.add] in Hmod.
    rewrite Nat.mod_small in Hmod; lia. }
  destruct tl as [|b [|? ?]]; cbn in Htl1; try lia.
  cbn [reference_tail]. rewrite Hbs, removelast_last. by rewrite Hd.
Qed.

End ReferenceFacts.

Section HashClaims.

Context {Other : Type}.

Lemma length_removelast (bs : list byte) :
  removelast bs = take (Nat.pred (length bs)) bs.
Proof. apply removelast_firstn_len. Qed.

(** C1, as amended. For a key shorter than 2^32 bytes, [djb33] starts from
    [5381 + seed + len(key)], applies [d = (d * 33) XOR b] to every byte of
    the key in order except the final one, which never contributes an
    update whatever the length of the tail, and finishes with
    [d XOR (d >> 16)], all in wrapping 32-bit arithmetic; this is the
    reference algorithm of the specification when the key is empty or its
    length is 1 modulo 4. *)
Theorem djb33_skips_final_byte (seed : Z) (k : key Other) :
  Z.of_nat (length (key_bytes k)) < 2 ^ 32 ->
  djb33 seed k
  = Ok (finish (mix_all (removelast (key_bytes k))
                  (u32 (5381 + seed + Z.of_nat (length (key_bytes k))))))
  /\ (key_bytes k = [] \/ (length (key_bytes k) mod 4 = 1)%nat ->
      djb33 seed k = Ok (djb33_reference seed (key_bytes k))).
Proof.
  intros Hlen.
  assert (E : djb33 seed k
    = Ok (finish (mix_all (removelast (key_bytes k))
                    (u32 (5381 + seed + Z.of_nat (length (key_bytes k))))))).
  { rewrite djb33_closed_form. cbv zeta.
    rewrite (u32_small (Z.of_nat _)) by lia.
    rewrite length_removelast.
    by replace (Z.to_nat (Z.of_nat (length (key_bytes k)) - 1))
      with (Nat.pred (length (key_bytes k))) by lia. }
  split; [exact E |].
  intros [Hnil | Hmod].
  - rewrite E, Hnil. done.
  - rewrite E. by rewrite djb33_reference_tail_1.
Qed.

(** The hash is a [uint32]. *)
Lemma lxor_u32 a b : 0 <= a < 2 ^ 32 -> 0 <= b < 2 ^ 32 ->
  0 <= Z.lxor a b < 2 ^ 32.
Proof.
  intros Ha Hb. split; [apply Z.lxor_nonneg; lia |].
  destruct (Z.eq_dec (Z.lxor a b) 0) as [-> | Hne]; [lia |].
  assert (0 <= Z.lxor a b) by (apply Z.lxor_nonneg; lia).
  apply Z.log2_lt_pow2; [lia |].
  eapply Z.le_lt_trans; [apply Z.log2_lxor; lia |].
  apply Z.max_lub_lt.
  - destruct (Z.eq_dec a 0) as [-> | ?]; [done |]. apply Z.log2_lt_pow2; lia.
  - destruct (Z.eq_dec b 0) as [-> | ?]; [done |]. apply Z.log2_lt_pow2; lia.
Qed.

Lemma byte_to_Z_range b : 0 <= byte_to_Z b < 2 ^ 32.
Proof.
  unfold byte_to_Z. pose proof (Byte.to_N_bounded b). lia.
Qed.

Lemma mix_all_range bs d : 0 <= d < 2 ^ 32 -> 0 <= mix_all bs d < 2 ^ 32.
Proof.
  revert d. induction bs as [|b bs IH]; intros d Hd; [done |].
  apply IH. apply lxor_u32; [apply u32_range | apply byte_to_Z_range].
Qed.

Lemma finish_range d : 0 <= d < 2 ^ 32 -> 0 <= finish d < 2 ^ 32.
Proof.
  intros Hd. apply lxor_u32; [done |]. rewrite Z.shiftr_div_pow2 by lia.
  split; [apply Z.div_pos; lia |].
  apply Z.le_lt_trans with d; [|lia]. apply Z.div_le_upper_bound; lia.
Qed.

Lemma djb33_total (seed : Z) (k : key Other) :
  exists h, djb33 seed k = Ok h /\ 0 <= h < 2 ^ 32.
Proof.
  eexists. split; [apply djb33_closed_form |].
  apply finish_range, mix_all_range, u32_range.
Qed.

(** C2. Two keys whose bytes agree up to the final byte get the same
    32-bit hash for every seed, and every router sends them to the same
    shard. *)
Theorem djb33_final_byte_ignored (k1 k2 : key Other) (p : list byte)
  (b1 b2 : byte) :
  key_bytes k1 = p ++ [b1] -> key_bytes k2 = p ++ [b2] ->
  (forall seed, exists h,
     djb33 seed k1 = Ok h /\ djb33 seed k2 = Ok h /\ 0 <= h < 2 ^ 32)
  /\ (forall V `(Countable Other) (sc : shardedCache Other V),
       bucket sc k1 = bucket sc k2).
Proof.
  intros H1 H2.
  assert (E : forall seed, djb33 seed k1 = djb33 seed k2).
  { intros seed. rewrite !djb33_closed_form. cbv zeta. rewrite H1, H2.
    rewrite !length_app. cbn [length].
    set (l := u32 (Z.of_nat (length p + 1))).
    assert (l <= Z.of_nat (length p + 1)) by (apply u32_le; lia).
    rewrite !take_app_le by lia. done. }
  split.
  - intros seed. destruct (djb33_total seed k1) as (h & Hh & Hr).
    exists h. by rewrite <- E.
  - intros V ? ? sc. unfold bucket. by rewrite E.
Qed.

(** C6. A key that is neither a string nor a byte sequence is hashed as the
    empty byte sequence: its hash is that of the empty key, a function of
    the seed alone, and a router sends all such keys to one shard. *)
Theorem djb33_other_key (seed : Z) (o : Other) :
  djb33 seed (KOther o) = djb33 (Other:=Other) seed (KBytes [])
  /\ djb33 seed (KOther o) = Ok (finish (u32 (5381 + seed)))
  /\ (forall o' : Other, djb33 seed (KOther o') = djb33 seed (KOther o))
  /\ (forall V `(Countable Other) (sc : shardedCache Other V) (o' : Other),
       bucket sc (KOther o') = bucket sc (KOther o)).
Proof.
  assert (E : forall (s : Z) (x : Other),
            djb33 s (KOther x) = Ok (finish (u32 (5381 + s)))).
  { intros s x. rewrite djb33_closed_form. cbv zeta. cbn [key_bytes length].
    change (u32 (Z.of_nat 0)) with 0. by rewrite take_nil, Z.add_0_r. }
  split; [reflexivity |]. split; [apply E |].
  split; [intros o'; by rewrite !E |].
  intros V ? ? sc o'. unfold bucket. by rewrite !E.
Qed.

(** C7. The hash of the empty key is the initial value [5381 + seed],
    wrapped to 32 bits, passed through the final step alone. *)
Theorem djb33_empty_key (seed : Z) :
  let d := u32 (5381 + seed) in
  djb33 (Other:=Other) seed (KString EmptyString)
  = Ok (Z.lxor d (Z.shiftr d 16))
  /\ djb33 (Other:=Other) seed (KBytes []) = Ok (Z.lxor d (Z.shiftr d 16)).
Proof.
  intros d. rewrite !djb33_closed_form. cbv zeta.
  change (key_bytes (KString EmptyString)) with (@nil byte).
  cbn [key_bytes length]. change (u32 (Z.of_nat 0)) with 0.
  by rewrite take_nil, Z.add_0_r.
Qed.

End HashClaims.

(** The router of a cache with string keys: no key of another type. *)
Definition string_key : Type := key Empty_set.

(** Test vectors, traced by hand through [sharded.go]. *)
Example djb33_abc : djb33 0 (KString "abc" : string_key) = Ok 5866418.
Proof. vm_compute. reflexivity. Qed.

Example djb33_abcd : djb33 0 (KString "abcd" : string_key) = Ok 193556352.
Proof. vm_compute. reflexivity. Qed.

Example djb33_beta : djb33 42 (KString "beta" : string_key) = Ok 195134241.
Proof. vm_compute. reflexivity. Qed.

(** C1, counterexample. For seed 0 and the two-byte string [ab] the code
    applies one update (for the byte [a]) where the reference algorithm of
    the specification applies two. *)
Lemma djb33_reference_fails_on_ab :
  djb33 0 (KString "ab" : string_key) = Ok 177540
  /\ djb33_reference 0 (String.list_byte_of_string "ab") = 5858941
  /\ djb33 0 (KString "ab" : string_key)
     <> Ok (djb33_reference 0 (String.list_byte_of_string "ab")).
Proof.
  split; [vm_compute; reflexivity |]. split; [vm_compute; reflexivity |].
  vm_compute. discriminate.
Qed.

Lemma djb33_skips_final_byte_witness :
  djb33 7 (KString "abcde" : string_key)
  = Ok (finish (mix_all (String.list_byte_of_string "abcd") (u32 (5381 + 7 + 5))))
  /\ djb33 7 (KString "abcde" : string_key)
     = Ok (djb33_reference 7 (String.list_byte_of_string "abcde")).
Proof.
  destruct (djb33_skips_final_byte 7 (KString "abcde" : string_key))
    as [E R]; [vm_compute; reflexivity |].
  split; [exact E | apply R; right; reflexivity].
Defined.

Lemma djb33_final_byte_ignored_witness :
  exists h, djb33 3 (KString "user1" : string_key) = Ok h
            /\ djb33 3 (KBytes (String.list_byte_of_string "user2")
                          : string_key) = Ok h.
Proof.
  destruct (djb33_final_byte_ignored (Other:=Empty_set)
              (KString "user1") (KBytes (String.list_byte_of_string "user2"))
              (String.list_byte_of_string "user") "1"%byte "2"%byte
              eq_refl eq_refl) as [Hh _].
  destruct (Hh 3) as (h & H1 & H2 & _). exists h. split; assumption.
Defined.

(** * The router and the facade *)

Section RouterClaims.

Context {Other V : Type} `{Countable Other} `{!Primitive Other V}.

#[local] Abbreviation shardedCache := (shardedCache Other V).

Lemma bucket_ok (sc : shardedCache) (k : key Other) :
  routable sc ->
  exists h c,
    djb33 (seed sc) k = Ok h
    /\ cs sc !! Z.to_nat (h mod m sc) = Some c
    /\ bucket sc k = Ok (Z.to_nat (h mod m sc), c).
Proof.
  intros [Hm Hlen]. destruct (djb33_total (seed sc) k) as (h & Hh & Hr).
  assert (0 <= h mod m sc < m sc) by (apply Z.mod_pos_bound; lia).
  destruct (lookup_lt_is_Some_2 (cs sc) (Z.to_nat (h mod m sc))) as [c Hc];
    [lia |].
  exists h, c. split; [done |]. split; [done |].
  unfold bucket. rewrite Hh. cbn [mbind result_bind].
  destruct (Z.eqb_spec (m sc) 0); [lia |]. by rewrite Hc.
Qed.

(** A keyed call is the call on the shard behind [bucket]. *)
Lemma exec1_keyed (c : call Other V) (k : key Other) (sc : shardedCache) :
  call_key c = Some k ->
  exec1 c sc
  = '(i, s) ← bucket sc k;
    Ok ((shard_call c s).1, with_shard sc i (shard_call c s).2).
Proof.
  intros Hk.
  destruct c; cbn in Hk; try discriminate; injection Hk as ->;
    cbn [exec1 shard_call]; unfold sc_Set, sc_Add, sc_Replace, sc_Get, sc_Delete;
    destruct (bucket sc k) as [[i s] | |]; cbn [mbind result_bind]; try done.
  - by destruct (cache_Add now k x d s).
  - by destruct (cache_Replace now k x d s).
  - by destruct (cache_Get now k s) as [[? ?] ?].
Qed.

(** No call changes the seed, the shard count or the number of shards, and
    on a routable cache no call panics. *)
Lemma exec1_ok (c : call Other V) (sc : shardedCache) :
  routable sc ->
  exists out sc',
    exec1 c sc = Ok (out, sc')
    /\ seed sc' = seed sc /\ m sc' = m sc
    /\ length (cs sc') = length (cs sc).
Proof.
  intros Hsc. destruct (call_key c) as [k |] eqn:Hk.
  - rewrite (exec1_keyed c k sc Hk).
    destruct (bucket_ok sc k Hsc) as (h & s & _ & _ & ->).
    cbn [mbind result_bind]. eexists _, _. split; [done |].
    cbn. by rewrite length_insert.
  - destruct c; cbn in Hk; try discriminate; cbn [exec1];
      eexists _, _; (split; [done |]); cbn; by rewrite ?length_fmap.
Qed.

Lemma exec_ok (calls : list (call Other V)) :
  forall sc : shardedCache,
  routable sc ->
  exists sc',
    exec calls sc = Ok sc'
    /\ seed sc' = seed sc /\ m sc' = m sc
    /\ length (cs sc') = length (cs sc).
Proof.
  induction calls as [|c calls IH]; intros sc Hsc.
  - by exists sc.
  - destruct (exec1_ok c sc Hsc) as (out & sc1 & E1 & Hs & Hm & Hl).
    destruct (IH sc1) as (sc' & E & Hs' & Hm' & Hl').
    { unfold routable. by rewrite Hm, Hl. }
    exists sc'. cbn [exec]. rewrite E1. cbn [mbind result_bind].
    split; [done |]. rewrite Hs', Hm', Hl'. done.
Qed.

(** C3. On a router with shard count [m >= 1], [bucket k] is the shard at
    index [djb33 seed k mod m]; equal keys get that same index again after
    any sequence of calls on the cache, since the index is a function of
    the seed, the key and the shard count, which no call changes. *)
Theorem bucket_deterministic (sc : shardedCache)
  (calls : list (call Other V)) (k1 k2 : key Other) :
  routable sc -> k1 = k2 ->
  exists h c sc' c',
    djb33 (seed sc) k1 = Ok h
    /\ cs sc !! Z.to_nat (h mod m sc) = Some c
    /\ bucket sc k1 = Ok (Z.to_nat (h mod m sc), c)
    /\ bucket sc k2 = Ok (Z.to_nat (h mod m sc), c)
    /\ exec calls sc = Ok sc'
    /\ bucket sc' k2 = Ok (Z.to_nat (h mod m sc), c')
    /\ forall sc2 : shardedCache,
         routable sc2 -> seed sc2 = seed sc -> m sc2 = m sc ->
         exists c2, bucket sc2 k2 = Ok (Z.to_nat (h mod m sc), c2).
Proof.
  intros Hsc <-.
  destruct (bucket_ok sc k1 Hsc) as (h & c & Hh & Hc & Hb).
  destruct (exec_ok calls sc Hsc) as (sc' & E & Hs & Hm & Hl).
  assert (Hany : forall sc2 : shardedCache,
            routable sc2 -> seed sc2 = seed sc -> m sc2 = m sc ->
            exists c2, bucket sc2 k1 = Ok (Z.to_nat (h mod m sc), c2)).
  { intros sc2 Hsc2 Hs2 Hm2.
    destruct (bucket_ok sc2 k1 Hsc2) as (h2 & c2 & Hh2 & _ & Hb2).
    rewrite Hs2, Hh in Hh2. injection Hh2 as <-. rewrite Hm2 in Hb2.
    by exists c2. }
  destruct (Hany sc') as [c' Hb']; [unfold routable; by rewrite Hm, Hl | done..|].
  by exists h, c, sc', c'.
Qed.

(** C4. A keyed call ([Set], [Get], [Delete], [Add], [Replace]) on key [k]
    is the call on the one shard [bucket k] selects: every other shard of
    the table is left as it was, and what the call returns and leaves in
    that shard is the same on any cache with that shard at that index,
    whatever its other shards hold. *)
Theorem keyed_call_touches_one_shard (c : call Other V) (k : key Other)
  (sc sc' : shardedCache) (out : output Other V) :
  call_key c = Some k ->
  exec1 c sc = Ok (out, sc') ->
  exists i s,
    bucket sc k = Ok (i, s)
    /\ out = (shard_call c s).1
    /\ cs sc' = <[i := (shard_call c s).2]> (cs sc)
    /\ (forall j, j <> i -> cs sc' !! j = cs sc !! j)
    /\ seed sc' = seed sc /\ m sc' = m sc /\ janitor sc' = janitor sc
    /\ (forall sc2 : shardedCache,
          seed sc2 = seed sc -> m sc2 = m sc -> cs sc2 !! i = Some s ->
          exists sc2',
            exec1 c sc2 = Ok (out, sc2')
            /\ cs sc2' !! i = cs sc' !! i
            /\ forall j, j <> i -> cs sc2' !! j = cs sc2 !! j).
Proof.
  intros Hk E. rewrite (exec1_keyed c k sc Hk) in E.
  destruct (bucket sc k) as [[i s] | |] eqn:Hb;
    cbn [mbind result_bind] in E; try discriminate.
  injection E as <- <-. exists i, s. split; [done |]. split; [done |].
  split; [done |].
  split; [intros j Hj; cbn; by apply list_lookup_insert_ne |].
  do 3 (split; [done |]).
  intros sc2 Hs Hm Hi.
  assert (Hb2 : bucket sc2 k = Ok (i, s)).
  { unfold bucket in Hb |- *. rewrite Hs, Hm.
    destruct (djb33 (seed sc) k) as [h | |]; cbn [mbind result_bind] in *;
      try discriminate.
    destruct (m sc =? 0); [discriminate |].
    destruct (cs sc !! Z.to_nat (h mod m sc)) eqn:Hc; [|discriminate].
    injection Hb as Hidx ->. rewrite Hidx. by rewrite Hi. }
  eexists. rewrite (exec1_keyed c k sc2 Hk), Hb2. cbn [mbind result_bind].
  split; [done |]. cbn.
  assert (i < length (cs sc2))%nat by (by eapply lookup_lt_Some).
  assert (i < length (cs sc))%nat.
  { unfold bucket in Hb.
    destruct (djb33 (seed sc) k) as [h | |]; cbn [mbind result_bind] in *;
      try discriminate.
    destruct (m sc =? 0); [discriminate |].
    destruct (cs sc !! Z.to_nat (h mod m sc)) eqn:Hc; [|discriminate].
    injection Hb as <- _. by eapply lookup_lt_Some. }
  split; [by rewrite !list_lookup_insert_eq |].
  intros j Hj. by apply list_lookup_insert_ne.
Qed.

(** C5. After [Flush], [Items] returns the empty table for every shard,
    whatever the shards held before, entries with a concrete expiration
    and entries that never expire alike. *)
Theorem flush_empties_every_shard (sc : shardedCache) :
  sc_Items (sc_Flush sc) = replicate (length (cs sc)) ∅
  /\ length (sc_Items (sc_Flush sc)) = length (cs sc)
  /\ Forall (fun table => table = ∅) (sc_Items (sc_Flush sc)).
Proof.
  assert (E : sc_Items (sc_Flush sc) = replicate (length (cs sc)) ∅).
  { unfold sc_Items, sc_Flush. cbn [cs]. rewrite <- list_fmap_compose.
    by apply const_fmap. }
  rewrite E. split; [done |]. split; [apply length_replicate |].
  apply Forall_replicate. done.
Qed.

End RouterClaims.

(** * Construction *)

Section ConstructionClaims.

Context {Other V : Type} `{Countable Other}.

#[local] Abbreviation shardedCache := (shardedCache Other V).

(** [make] accepts the length [n] in the world [w]. *)
Lemma make_accepts (n : Z) (w : World) :
  0 <= n <= Z.of_N (make_limit w) ->
  (n <? 0) || (Z.of_N (make_limit w) <? n) = false.
Proof.
  intros Hn. apply orb_false_intro; [apply Z.ltb_ge | apply Z.ltb_ge]; lia.
Qed.

(** For any length [make] accepts, [newShardedCache] returns. *)
Lemma newShardedCache_returns (n : Z) (de : duration) (w : World) :
  0 <= n <= Z.of_N (make_limit w) ->
  exists (sc : shardedCache) (w' : World), newShardedCache n de w = Ok (sc, w').
Proof.
  intros Hn. unfold newShardedCache, rand_Int. cbv zeta.
  destruct (rand_Reader w (rand_reads w) (u64 MaxUint32)) as [rnd |];
    cbn [insecurerand_Uint32 Stderr_Write make_limit];
    rewrite (make_accepts n w Hn); by eexists _, _.
Qed.

(** C8. Construction reads the strong random source once and, for any
    shard count [make] accepts, returns a cache whether or not that read
    fails. When it succeeds the seed is the number read, nothing is written
    to standard error and the other source is not touched. When it fails
    the seed is drawn from the non-cryptographic source and one message is
    written to standard error, the warning that the system CSPRNG could not
    be read and that construction continues with an insecure seed. *)
Theorem newShardedCache_seed (n : Z) (de : duration) (w : World) :
  0 <= n <= Z.of_N (make_limit w) ->
  exists (sc : shardedCache) (w' : World),
    newShardedCache n de w = Ok (sc, w')
    /\ rand_reads w' = S (rand_reads w)
    /\ match rand_Reader w (rand_reads w) (u64 MaxUint32) with
       | Some rnd =>
           seed sc = u32 (u64 rnd)
           /\ stderr w' = stderr w
           /\ insecure_reads w' = insecure_reads w
       | None =>
           seed sc = insecure_source w (insecure_reads w)
           /\ stderr w'
              = stderr w
                ++ [("WARNING: go-cache's newShardedCache failed to read from the system CSPRNG (/dev/urandom or equivalent.) Your system's security may be compromised. Continuing with an insecure seed."
                     ++ String (Ascii.ascii_of_nat 10) EmptyString)%string]
           /\ insecure_reads w' = S (insecure_reads w)
       end.
Proof.
  intros Hn. unfold newShardedCache, rand_Int. cbv zeta.
  destruct (rand_Reader w (rand_reads w) (u64 MaxUint32)) as [rnd |];
    cbn [insecurerand_Uint32 Stderr_Write make_limit];
    rewrite (make_accepts n w Hn);
    eexists _, _; (split; [reflexivity |]); cbn; done.
Qed.

(** What [newShardedCache] builds can route: [n] shards with the given
    default expiration and empty tables, shard count [n], no janitor. *)
Lemma newShardedCache_shards (n : Z) (de : duration) (w w' : World)
  (sc : shardedCache) :
  newShardedCache n de w = Ok (sc, w') ->
  0 <= n
  /\ m sc = u32 n
  /\ cs sc = replicate (Z.to_nat n) (mkCache de ∅)
  /\ janitor sc = None
  /\ goroutines w' = goroutines w /\ finalizers w' = finalizers w.
Proof.
  unfold newShardedCache, rand_Int. cbv zeta.
  destruct (rand_Reader w (rand_reads w) (u64 MaxUint32)) as [rnd |];
    cbn [insecurerand_Uint32 Stderr_Write make_limit];
    destruct (Z.ltb_spec n 0); cbn [orb]; try discriminate;
    destruct (Z.of_N (make_limit w) <? n); try discriminate;
    intros [= <- <-]; cbn; repeat split; lia.
Qed.

(** With a shard count of at least 1 it can route. *)
Lemma newShardedCache_routable (n : Z) (de : duration) (w w' : World)
  (sc : shardedCache) :
  newShardedCache n de w = Ok (sc, w') ->
  1 <= m sc ->
  routable sc.
Proof.
  intros E Hm1. destruct (newShardedCache_shards _ _ _ _ _ E)
    as (Hn & Hm & Hcs & _).
  unfold routable. split; [done |].
  rewrite Hm, Hcs, length_replicate. pose proof (u32_le n Hn). lia.
Qed.

(** C9. For any shard count [make] accepts, the facade gets a janitor,
    with its goroutine started and the stopping finalizer registered,
    exactly when the cleanup interval is positive; with an interval of zero
    or less there is no janitor, no goroutine is started and no finalizer
    is registered. *)
Theorem janitor_iff_positive_interval (de ci : duration) (n : Z) (w : World) :
  0 <= n <= Z.of_N (make_limit w) ->
  exists (sc : shardedCache) (w' : World),
    unexportedNewSharded de ci n w = Ok (sc, w')
    /\ (is_Some (janitor sc) <-> 0 < ci)
    /\ (0 < ci ->
        janitor sc = Some (mkJanitor ci None)
        /\ goroutines w' = goroutines w ++ [GoRun (mkJanitor ci None)]
        /\ finalizers w' = finalizers w ++ [FinStopShardedJanitor])
    /\ (ci <= 0 ->
        janitor sc = None
        /\ goroutines w' = goroutines w
        /\ finalizers w' = finalizers w).
Proof.
  intros Hn. unfold unexportedNewSharded. cbv zeta.
  set (de' := if de =? 0 then -1 else de).
  destruct (newShardedCache_returns n de' w Hn) as (sc & w1 & E).
  destruct (newShardedCache_shards _ _ _ _ _ E) as (_ & _ & _ & Hj & Hg & Hf).
  destruct (Z.ltb_spec 0 ci) as [Hci | Hci].
  - eexists _, _. split.
    { rewrite E. cbn [mbind result_bind]. reflexivity. }
    cbn. rewrite Hg, Hf.
    split; [split; [done | by eexists] |]. split; [done | lia].
  - exists sc, w1. split.
    { rewrite E. cbn [mbind result_bind]. reflexivity. }
    rewrite Hj, Hg, Hf.
    split; [split; [intros [? ?]; discriminate | lia] |].
    split; [lia | done].
Qed.

(** A shard count [make] refuses, negative or beyond its limit, makes the
    constructor panic. *)
Lemma unexportedNewSharded_refused (de ci : duration) (n : Z) (w : World) :
  n < 0 \/ Z.of_N (make_limit w) < n ->
  unexportedNewSharded (Other:=Other) (V:=V) de ci n w = Panic.
Proof.
  intros Hn. unfold unexportedNewSharded, newShardedCache, rand_Int. cbv zeta.
  assert ((n <? 0) || (Z.of_N (make_limit w) <? n) = true) as E.
  { apply orb_true_iff. destruct Hn; [left | right]; by apply Z.ltb_lt. }
  destruct (rand_Reader w (rand_reads w) (u64 MaxUint32));
    cbn [insecurerand_Uint32 Stderr_Write make_limit]; by rewrite E.
Qed.

End ConstructionClaims.

(** * The stop channel *)

Section JanitorClaims.

Context {Other V : Type} `{Countable Other}.

#[local] Abbreviation system := (system Other V).

(** The operand of a send is a channel or a panic, never a completed
    send. *)
Lemma stop_operand_not_returned (sc : shardedCache Other V) :
  stop_operand sc <> SignalReturned.
Proof. unfold stop_operand. by destruct (janitor sc). Qed.

(** Once [Run] has returned, the only step left to the system is a caller
    evaluating the operand of its send. *)
Lemma step_after_return (s s' : system) :
  sys_run s = RunReturned -> step s s' ->
  sys_run s' = RunReturned
  /\ sys_sc s' = sys_sc s
  /\ sys_chans s' = sys_chans s
  /\ forall i, sys_signals s' !! i = Some SignalReturned ->
               sys_signals s !! i = Some SignalReturned.
Proof.
  intros Hr Hstep. destruct Hstep as [| | sc r sigs n i Hi |];
    cbn in Hr; try discriminate.
  cbn. repeat split; try done.
  intros i' Hi'. destruct (decide (i = i')) as [<- | Hne].
  - rewrite list_lookup_insert_eq in Hi' by (by eapply lookup_lt_Some).
    injection Hi' as Hi'. by apply stop_operand_not_returned in Hi'.
  - by rewrite list_lookup_insert_ne in Hi'.
Qed.

Lemma steps_after_return (s s' : system) :
  steps s s' -> sys_run s = RunReturned ->
  sys_run s' = RunReturned
  /\ sys_sc s' = sys_sc s
  /\ sys_chans s' = sys_chans s
  /\ forall i, sys_signals s' !! i = Some SignalReturned ->
               sys_signals s !! i = Some SignalReturned.
Proof.
  induction 1 as [s | s1 s2 s3 Hstep _ IH]; intros Hr; [done |].
  destruct (step_after_return s1 s2 Hr Hstep) as (Hr2 & Hsc & Hn & Hsig).
  destruct (IH Hr2) as (Hr3 & Hsc3 & Hn3 & Hsig3).
  repeat split; try congruence. intros i Hi. by apply Hsig, Hsig3.
Qed.

(** C10, as amended. A signal to a janitor that has already stopped never
    completes: its caller stays blocked in the send on the unbuffered stop
    channel, which has no receiver left. Nothing it does changes the cache
    or the janitor, which stays stopped. *)
Theorem signal_after_stop_blocks (s s' : system) (i : nat) :
  sys_run s = RunReturned ->
  sys_signals s !! i <> Some SignalReturned ->
  steps s s' ->
  sys_signals s' !! i <> Some SignalReturned
  /\ sys_run s' = RunReturned
  /\ sys_sc s' = sys_sc s.
Proof.
  intros Hr Hi Hsteps.
  destruct (steps_after_return s s' Hsteps Hr) as (Hr' & Hsc & _ & Hsig).
  split; [|done]. intros Hi'. by apply Hsig in Hi'.
Qed.

End JanitorClaims.

(** * More on the hash *)

Section HashExtras.

Context {Other : Type}.

(** X1. [djb33] never panics: for every seed and every key, of any length,
    each index it reads lies inside the key, and it returns a
    [uint32]. *)
Theorem djb33_never_panics (seed : Z) (k : key Other) :
  exists h, djb33 seed k = Ok h /\ 0 <= h < 2 ^ 32.
Proof.
  destruct (djb33_total seed k) as (h & Hh & Hr). by exists h.
Qed.

Lemma finish_finish d : 0 <= d < 2 ^ 32 -> finish (finish d) = d.
Proof.
  intros Hd. unfold finish.
  rewrite Z.shiftr_lxor, Z.shiftr_shiftr by lia.
  replace (Z.shiftr d (16 + 16)) with 0.
  - rewrite Z.lxor_0_r, Z.lxor_assoc, Z.lxor_nilpotent. apply Z.lxor_0_r.
  - symmetry. rewrite Z.shiftr_div_pow2 by lia. apply Z.div_small.
    change (2 ^ (16 + 16)) with (2 ^ 32). lia.
Qed.

Lemma finish_inj d1 d2 :
  0 <= d1 < 2 ^ 32 -> 0 <= d2 < 2 ^ 32 -> finish d1 = finish d2 -> d1 = d2.
Proof.
  intros H1 H2 E. rewrite <- (finish_finish d1 H1), <- (finish_finish d2 H2).
  by rewrite E.
Qed.

(** X2. The final step [d ^ (d >> 16)] is its own inverse on 32-bit
    values, so it merges no two states: hashes are equal exactly when the
    states before the final step are. *)
Theorem finish_involution (d d' : Z) :
  0 <= d < 2 ^ 32 -> 0 <= d' < 2 ^ 32 ->
  finish (finish d) = d /\ (finish d = finish d' <-> d = d').
Proof.
  intros Hd Hd'. split; [by apply finish_finish |].
  split; [by apply finish_inj | by intros ->].
Qed.

(** 33 is a unit modulo 2^32. *)
Lemma mul33_inj a b :
  0 <= a < 2 ^ 32 -> 0 <= b < 2 ^ 32 -> u32 (a * 33) = u32 (b * 33) -> a = b.
Proof.
  intros Ha Hb E.
  assert (R : forall x, 0 <= x < 2 ^ 32 -> u32 (u32 (x * 33) * 1041204193) = x).
  { intros x Hx. unfold u32. rewrite Z.mul_mod_idemp_l by lia.
    replace (x * 33 * 1041204193) with (x + x * 8 * 2 ^ 32) by lia.
    rewrite Z.mod_add by lia. by apply Z.mod_small. }
  rewrite <- (R a Ha), <- (R b Hb). by rewrite E.
Qed.

Lemma lxor_cancel_r a b c : Z.lxor a c = Z.lxor b c -> a = b.
Proof.
  intros E. apply (f_equal (fun x => Z.lxor x c)) in E.
  by rewrite !Z.lxor_assoc, Z.lxor_nilpotent, !Z.lxor_0_r in E.
Qed.

Lemma lxor_cancel_l a b c : Z.lxor c a = Z.lxor c b -> a = b.
Proof. rewrite !(Z.lxor_comm c). apply lxor_cancel_r. Qed.

Lemma byte_to_Z_inj b1 b2 : byte_to_Z b1 = byte_to_Z b2 -> b1 = b2.
Proof.
  unfold byte_to_Z. intros E. apply N2Z.inj in E.
  assert (Some b1 = Some b2) as [= ->]; [|done].
  by rewrite <- !Byte.of_to_N, E.
Qed.

Lemma mix_range d b : 0 <= mix d (byte_to_Z b) < 2 ^ 32.
Proof. apply lxor_u32; [apply u32_range | apply byte_to_Z_range]. Qed.

(** The updates of a run of bytes map distinct states to distinct
    states. *)
Lemma mix_all_inj (q : list byte) :
  forall d1 d2,
  0 <= d1 < 2 ^ 32 -> 0 <= d2 < 2 ^ 32 ->
  mix_all q d1 = mix_all q d2 -> d1 = d2.
Proof.
  induction q as [|b q IH]; intros d1 d2 H1 H2 E; [done |].
  apply (IH _ _ (mix_range d1 b) (mix_range d2 b)) in E.
  apply lxor_cancel_r in E. by apply mul33_inj.
Qed.

(** X3. Two keys of one length below 2^32 whose bytes differ at exactly one
    position before the final one (and possibly in the final byte) never
    have the same hash, whatever the seed. *)
Theorem djb33_one_byte_changes_hash (seed : Z) (k1 k2 : key Other)
  (p q : list byte) (b1 b2 e1 e2 : byte) :
  key_bytes k1 = p ++ b1 :: q ++ [e1] ->
  key_bytes k2 = p ++ b2 :: q ++ [e2] ->
  Z.of_nat (length (key_bytes k1)) < 2 ^ 32 ->
  b1 <> b2 ->
  djb33 seed k1 <> djb33 seed k2.
Proof.
  intros H1 H2 Hlen Hne.
  assert (L : forall b e,
            length (p ++ b :: q ++ [e]) = S (length (p ++ b :: q))).
  { intros b e. rewrite !length_app. cbn. rewrite length_app. cbn. lia. }
  assert (T : forall b e,
            take (length (p ++ b :: q)) (p ++ b :: q ++ [e]) = p ++ b :: q).
  { intros b e. change (p ++ b :: q ++ [e]) with (p ++ (b :: q) ++ [e]).
    rewrite app_assoc. by rewrite take_app_length. }
  assert (Lq : forall b, length (p ++ b :: q) = (length p + S (length q))%nat).
  { intros b. rewrite length_app. done. }
  rewrite !djb33_closed_form. cbv zeta. rewrite H1, H2 in *.
  rewrite !L in *. rewrite !(u32_small (Z.of_nat _)) by (rewrite ?Lq in *; lia).
  replace (Z.to_nat (Z.of_nat (S (length (p ++ b1 :: q))) - 1))
    with (length (p ++ b1 :: q)) by lia.
  replace (Z.to_nat (Z.of_nat (S (length (p ++ b2 :: q))) - 1))
    with (length (p ++ b2 :: q)) by lia.
  rewrite !T. rewrite (Lq b1), (Lq b2).
  set (d0 := u32 _). intros [= E].
  apply finish_inj in E; [|apply mix_all_range, u32_range..].
  unfold mix_all in E. rewrite !fold_left_app in E. cbn [fold_left] in E.
  fold (mix_all p d0) in E.
  apply (mix_all_inj q) in E; [|apply mix_range..].
  apply lxor_cancel_l, byte_to_Z_inj in E. done.
Qed.

End HashExtras.

(** * More on the router and the facade *)

Section RouterExtras.

Context {Other V : Type} `{Countable Other} `{!Primitive Other V}.

#[local] Abbreviation shardedCache := (shardedCache Other V).

(** What [bucket] returning a handle says. *)
Lemma bucket_inv (sc : shardedCache) (k : key Other) i s :
  bucket sc k = Ok (i, s) ->
  exists h,
    djb33 (seed sc) k = Ok h /\ m sc <> 0
    /\ i = Z.to_nat (h mod m sc) /\ cs sc !! i = Some s.
Proof.
  unfold bucket. intros Hb.
  destruct (djb33 (seed sc) k) as [h | |]; cbn [mbind result_bind] in Hb;
    try discriminate.
  destruct (Z.eqb_spec (m sc) 0); [discriminate |].
  destruct (cs sc !! Z.to_nat (h mod m sc)) eqn:Hc; [|discriminate].
  injection Hb as <- <-. by exists h.
Qed.

(** [bucket] after a call on the shard at [j]. *)
Lemma bucket_with_shard (sc : shardedCache) (k : key Other) i s j c :
  bucket sc k = Ok (i, s) -> (j < length (cs sc))%nat ->
  bucket (with_shard sc j c) k = Ok (i, if decide (j = i) then c else s).
Proof.
  intros Hb Hj. destruct (bucket_inv _ _ _ _ Hb) as (h & Hh & Hm & -> & Hs).
  unfold bucket. cbn [seed m cs with_shard]. rewrite Hh.
  cbn [mbind result_bind]. destruct (Z.eqb_spec (m sc) 0); [done |].
  destruct (decide (j = Z.to_nat (h mod m sc))) as [-> | Hne].
  - by rewrite list_lookup_insert_eq.
  - by rewrite list_lookup_insert_ne, Hs.
Qed.

Lemma with_shard_comm (sc : shardedCache) i j c c' :
  i <> j ->
  with_shard (with_shard sc i c) j c' = with_shard (with_shard sc j c') i c.
Proof.
  intros Hne. unfold with_shard. cbn. by rewrite list_insert_insert_ne.
Qed.

(** X4. Two keyed calls with string keys that are routed to different
    shards are independent: given the clock reading each of them takes,
    the values they return and the cache they leave are the same whichever
    of the two runs first. *)
Theorem calls_on_different_shards_commute (c1 c2 : call Other V)
  (k1 k2 : string) (sc : shardedCache) i1 i2 s1 s2 :
  call_key c1 = Some (KString k1) -> call_key c2 = Some (KString k2) ->
  bucket sc (KString k1) = Ok (i1, s1) ->
  bucket sc (KString k2) = Ok (i2, s2) ->
  i1 <> i2 ->
  exists o1 o2 sc1 sc2 sc',
    exec1 c1 sc = Ok (o1, sc1) /\ exec1 c2 sc1 = Ok (o2, sc')
    /\ exec1 c2 sc = Ok (o2, sc2) /\ exec1 c1 sc2 = Ok (o1, sc').
Proof.
  intros Hk1 Hk2 Hb1 Hb2 Hne.
  destruct (bucket_inv _ _ _ _ Hb1) as (_ & _ & _ & _ & Hs1).
  destruct (bucket_inv _ _ _ _ Hb2) as (_ & _ & _ & _ & Hs2).
  apply lookup_lt_Some in Hs1, Hs2.
  exists (shard_call c1 s1).1, (shard_call c2 s2).1,
    (with_shard sc i1 (shard_call c1 s1).2),
    (with_shard sc i2 (shard_call c2 s2).2),
    (with_shard (with_shard sc i1 (shard_call c1 s1).2) i2
       (shard_call c2 s2).2).
  rewrite (exec1_keyed c1 _ _ Hk1), (exec1_keyed c2 _ _ Hk2),
    (exec1_keyed c1 _ _ Hk1), (exec1_keyed c2 _ _ Hk2).
  rewrite Hb1, Hb2, (bucket_with_shard _ _ _ _ _ _ Hb2 Hs1),
    (bucket_with_shard _ _ _ _ _ _ Hb1 Hs2).
  cbn [mbind result_bind]. rewrite !decide_False by done.
  repeat split. by rewrite with_shard_comm.
Qed.

(** What [unexportedNewSharded] returns, when it returns. *)
Lemma unexportedNewSharded_inv (de ci n : Z) (w w' : World)
  (sc : shardedCache) :
  unexportedNewSharded de ci n w = Ok (sc, w') ->
  0 <= n /\ m sc = u32 n
  /\ cs sc = replicate (Z.to_nat n) (mkCache (if de =? 0 then -1 else de) ∅).
Proof.
  unfold unexportedNewSharded. cbv zeta.
  set (de' := if de =? 0 then -1 else de).
  destruct (newShardedCache n de' w) as [[sc0 w0] | |] eqn:E;
    cbn [mbind result_bind]; try discriminate.
  destruct (newShardedCache_shards _ _ _ _ _ E) as (Hn & Hm & Hcs & _).
  destruct (0 <? ci); cbn; intros [= <- <-]; cbn; done.
Qed.

Lemma unexportedNewSharded_returns (de ci n : Z) (w : World) :
  0 <= n <= Z.of_N (make_limit w) ->
  exists (sc : shardedCache) w', unexportedNewSharded de ci n w = Ok (sc, w').
Proof.
  intros Hn. unfold unexportedNewSharded. cbv zeta.
  set (de' := if de =? 0 then -1 else de).
  destruct (newShardedCache_returns (Other:=Other) (V:=V) n de' w Hn)
    as (sc & w1 & E).
  destruct (0 <? ci) eqn:Hci.
  - eexists _, _. rewrite E. cbn [mbind result_bind]. reflexivity.
  - exists sc, w1. by rewrite E.
Qed.

(** X6. A cache constructed with a shard count from 1 to 2^32 - 1 that
    [make] accepts never panics on calls with string keys: every sequence
    of such keyed calls and of fan-out calls runs to its end, with the
    seed, the shard count and the number of shards as construction set
    them. *)
Theorem constructed_cache_never_panics (de ci n : Z) (w : World)
  (calls : list (call Other V)) :
  1 <= n < 2 ^ 32 -> n <= Z.of_N (make_limit w) ->
  Forall string_keyed calls ->
  exists (sc : shardedCache) w' sc',
    unexportedNewSharded de ci n w = Ok (sc, w')
    /\ exec calls sc = Ok sc'
    /\ seed sc' = seed sc /\ m sc' = n /\ length (cs sc') = Z.to_nat n.
Proof.
  intros Hn Hlim _.
  destruct (unexportedNewSharded_returns de ci n w) as (sc & w' & E); [lia |].
  destruct (unexportedNewSharded_inv _ _ _ _ _ _ E) as (_ & Hm & Hcs).
  rewrite u32_small in Hm by lia.
  assert (Hlen : length (cs sc) = Z.to_nat n)
    by (by rewrite Hcs, length_replicate).
  destruct (exec_ok calls sc) as (sc' & E' & Hs & Hm' & Hl').
  { unfold routable. rewrite Hm, Hlen. lia. }
  exists sc, w', sc'. rewrite Hm', Hl'. done.
Qed.

(** X7. With a shard count of 0 the constructor returns a cache without a
    check, and every keyed call on it panics in the modulo of [bucket]. *)
Theorem zero_shard_count_panics (de ci : Z) (w : World) :
  exists (sc : shardedCache) w',
    unexportedNewSharded de ci 0 w = Ok (sc, w')
    /\ forall (c : call Other V) (k : key Other),
         call_key c = Some k -> exec1 c sc = Panic.
Proof.
  destruct (unexportedNewSharded_returns de ci 0 w) as (sc & w' & E); [lia |].
  destruct (unexportedNewSharded_inv _ _ _ _ _ _ E) as (_ & Hm & _).
  exists sc, w'. split; [done |]. intros c k Hk.
  rewrite (exec1_keyed c k sc Hk). unfold bucket.
  destruct (djb33_total (seed sc) k) as (h & -> & _).
  cbn [mbind result_bind]. rewrite Hm. done.
Qed.

(** X8. Every shard of a constructed cache starts empty, and none has a
    default expiration of 0: a requested default of 0 is stored as -1.
    [Items] on a fresh cache returns one empty table per shard. *)
Theorem constructed_shards_are_empty (de ci n : Z) (w w' : World)
  (sc : shardedCache) :
  unexportedNewSharded de ci n w = Ok (sc, w') ->
  length (cs sc) = Z.to_nat n
  /\ Forall (fun c => items c = ∅ /\ defaultExpiration c <> 0
                      /\ (de <> 0 -> defaultExpiration c = de)
                      /\ (de = 0 -> defaultExpiration c = -1)) (cs sc)
  /\ sc_Items sc = replicate (Z.to_nat n) ∅.
Proof.
  intros E. destruct (unexportedNewSharded_inv _ _ _ _ _ _ E) as (_ & _ & Hcs).
  unfold sc_Items. rewrite Hcs.
  split; [apply length_replicate |]. split.
  - apply Forall_replicate. cbn. split; [done |].
    destruct (Z.eqb_spec de 0); repeat split; intros; lia.
  - by rewrite fmap_replicate.
Qed.

End RouterExtras.

(** * More on the janitor *)

Section JanitorExtras.

Context {Other V : Type} `{Countable Other}.

#[local] Abbreviation system := (system Other V).

(** A caller blocked on the nil channel stays there. *)
Lemma step_nil_send (s s' : system) (i : nat) :
  step s s' ->
  sys_signals s !! i = Some (SignalSending None) ->
  sys_signals s' !! i = Some (SignalSending None).
Proof.
  intros Hstep Hi.
  destruct Hstep as [| | sc r sigs n i' Hi' | sc sigs n i' j ch _ _ Hi'];
    cbn in *; try done.
  - rewrite list_lookup_insert_ne; [done |]. intros ->. congruence.
  - rewrite list_lookup_insert_ne; [done |]. intros ->. congruence.
Qed.

Lemma steps_nil_send (s s' : system) (i : nat) :
  steps s s' ->
  sys_signals s !! i = Some (SignalSending None) ->
  sys_signals s' !! i = Some (SignalSending None).
Proof.
  induction 1 as [s | s1 s2 s3 Hstep _ IH]; intros Hi; [done |].
  by eapply IH, step_nil_send.
Qed.

(** X9. [runShardedJanitor] leaves [j.stop] nil until the goroutine of
    [Run] makes the channel. A call of [stopShardedJanitor] that evaluates
    [sc.janitor.stop] before that sends on the nil channel, and its send
    never completes, whatever [Run] and the other callers do afterwards. *)
Theorem signal_before_make_blocks (sc : shardedCache Other V)
  (r : run_state) (sigs : list signal_state) (n : chan) (i : nat)
  (j : shardedJanitor) (s' : system) :
  janitor sc = Some j -> stop j = None ->
  sigs !! i = Some SignalCalled ->
  steps (mkSystem sc r (<[i := SignalSending None]> sigs) n) s' ->
  step (mkSystem sc r sigs n)
       (mkSystem sc r (<[i := SignalSending None]> sigs) n)
  /\ sys_signals s' !! i = Some (SignalSending None).
Proof.
  intros Hj Hstop Hi Hsteps. split.
  - replace (SignalSending None) with (stop_operand sc)
      by (unfold stop_operand; by rewrite Hj, Hstop).
    by apply stopShardedJanitor_operand.
  - apply (steps_nil_send _ _ _ Hsteps). cbn.
    apply list_lookup_insert_eq. by eapply lookup_lt_Some.
Qed.

Lemma step_one_receive (s s' : system) :
  step s s' -> one_receive s -> one_receive s'.
Proof.
  intros Hstep [Hnone Hone].
  destruct Hstep as [sc sigs n | sc sigs n now
                    | sc r sigs n i' Hi' | sc sigs n i' jan ch _ _ Hi'];
    cbn in *.
  - split; [intros _; by apply Hnone | done].
  - split; [done | done].
  - assert (Sub : forall i, <[i' := stop_operand sc]> sigs !! i
                            = Some SignalReturned ->
                            sigs !! i = Some SignalReturned).
    { intros i Hi. destruct (decide (i' = i)) as [<- | Hne].
      - rewrite list_lookup_insert_eq in Hi by (by eapply lookup_lt_Some).
        injection Hi as Hi. by apply stop_operand_not_returned in Hi.
      - by rewrite list_lookup_insert_ne in Hi. }
    split.
    + intros Hr i Hi. by apply (Hnone Hr i), Sub.
    + intros i j Hi Hj'. apply Hone; by apply Sub.
  - assert (Only : forall i, <[i' := SignalReturned]> sigs !! i
                             = Some SignalReturned -> i = i').
    { intros i Hi. destruct (decide (i' = i)) as [<- | Hne]; [done |].
      rewrite list_lookup_insert_ne in Hi by done.
      by apply Hnone in Hi. }
    split; [done |]. intros i j Hi Hj'.
    by rewrite (Only i Hi), (Only j Hj').
Qed.

(** X10. However many callers signal, at most one send is ever received:
    in every run that starts before [Run] has returned and with no signal
    delivered, no two calls of [stopShardedJanitor] return. *)
Theorem at_most_one_signal_returns (s s' : system) (i j : nat) :
  sys_run s <> RunReturned ->
  (forall i, sys_signals s !! i <> Some SignalReturned) ->
  steps s s' ->
  sys_signals s' !! i = Some SignalReturned ->
  sys_signals s' !! j = Some SignalReturned ->
  i = j.
Proof.
  intros Hr Hnone Hsteps.
  assert (Inv : one_receive s).
  { split; [done |]. intros i0 j0 Hi0. by apply Hnone in Hi0. }
  clear Hr Hnone. revert Inv.
  induction Hsteps as [s | s1 s2 s3 Hstep _ IH]; intros Inv.
  - apply Inv.
  - by eapply IH, step_one_receive.
Qed.

(** The routing state of a cache: seed, shard count, number of shards. *)
Lemma step_routing (s s' : system) :
  step s s' ->
  seed (sys_sc s') = seed (sys_sc s)
  /\ m (sys_sc s') = m (sys_sc s)
  /\ length (cs (sys_sc s')) = length (cs (sys_sc s)).
Proof.
  intros Hstep. destruct Hstep; cbn; try done.
  by rewrite length_fmap.
Qed.

Lemma steps_routing (s s' : system) :
  steps s s' ->
  seed (sys_sc s') = seed (sys_sc s)
  /\ m (sys_sc s') = m (sys_sc s)
  /\ length (cs (sys_sc s')) = length (cs (sys_sc s)).
Proof.
  induction 1 as [s | s1 s2 s3 Hstep _ IH]; [done |].
  destruct (step_routing _ _ Hstep) as (Hs & Hm & Hl).
  destruct IH as (Hs' & Hm' & Hl'). repeat split; congruence.
Qed.

(** X11. Nothing the janitor or its callers do moves a key: after any run
    of [Run] (channel made, sweeps on ticks, stop) and of callers of
    [stopShardedJanitor], every key is routed to the index it had
    before. *)
Theorem janitor_keeps_routing (s s' : system) (k : key Other) :
  routable (sys_sc s) -> steps s s' ->
  routable (sys_sc s')
  /\ exists i c c',
       bucket (sys_sc s) k = Ok (i, c) /\ bucket (sys_sc s') k = Ok (i, c').
Proof.
  intros Hsc Hsteps. destruct (steps_routing _ _ Hsteps) as (Hs & Hm & Hl).
  assert (Hsc' : routable (sys_sc s')) by (unfold routable; by rewrite Hm, Hl).
  split; [done |].
  destruct (bucket_ok (sys_sc s) k Hsc) as (h & c & Hh & _ & Hb).
  destruct (bucket_ok (sys_sc s') k Hsc') as (h' & c' & Hh' & _ & Hb').
  rewrite Hs, Hh in Hh'. injection Hh' as <-. rewrite Hm in Hb'.
  by eexists _, c, c'.
Qed.

(** X12. A signal sent once [Run] has made the channel can be received:
    from the state construction leaves (goroutine started, a caller about
    to signal) there is a run in which the call returns and [Run] returns,
    with the tables of the cache untouched. *)
Theorem signal_can_stop_janitor (sc : shardedCache Other V)
  (sigs : list signal_state) (n : chan) (i : nat) (j : shardedJanitor) :
  janitor sc = Some j ->
  sigs !! i = Some SignalCalled ->
  exists s',
    steps (mkSystem sc RunSpawned sigs n) s'
    /\ sys_run s' = RunReturned
    /\ sys_signals s' !! i = Some SignalReturned
    /\ cs (sys_sc s') = cs sc.
Proof.
  intros Hj Hi.
  assert (Hlt : (i < length sigs)%nat) by (by eapply lookup_lt_Some).
  assert (Hj' : janitor (set_stop sc n) = Some (mkJanitor (Interval j) (Some n)))
    by (unfold set_stop; cbn; by rewrite Hj).
  exists (mkSystem (set_stop sc n) RunReturned
            (<[i := SignalReturned]>
               (<[i := stop_operand (set_stop sc n)]> sigs)) (S n)).
  split.
  - eapply steps_step; [apply Run_make |].
    eapply steps_step; [by apply (stopShardedJanitor_operand _ _ _ _ i) |].
    eapply steps_step; [|apply steps_refl].
    eapply (Run_stop _ _ _ i _ n); [exact Hj' | done |].
    unfold stop_operand. rewrite Hj'. cbn.
    by apply list_lookup_insert_eq.
  - cbn. split; [done |]. split; [|done].
    apply list_lookup_insert_eq. by rewrite length_insert.
Qed.

End JanitorExtras.

(** * A cache with string keys

    Four shards, seed 42, the shard primitive of the specification. *)

#[local] Existing Instance spec_primitive.

Definition sc4 : shardedCache Empty_set Z :=
  mkSharded 42 4 (replicate 4 (mkCache (-1) ∅)) None.

Definition calls4 : list (call Empty_set Z) :=
  [ CallSet 100 (KString "alpha") 1 0;
    CallSet 100 (KString "beta") 2 50;
    CallAdd 100 (KString "gamma") 3 0;
    CallGet 120 (KString "beta");
    CallDelete (KString "alpha") ].

Lemma bucket_deterministic_witness :
  exists h c sc' c',
    djb33 42 (KString "beta" : string_key) = Ok h
    /\ bucket sc4 (KString "beta") = Ok (Z.to_nat (h mod 4), c)
    /\ exec calls4 sc4 = Ok sc'
    /\ bucket sc' (KString "beta") = Ok (Z.to_nat (h mod 4), c').
Proof.
  destruct (bucket_deterministic sc4 calls4 (KString "beta") (KString "beta"))
    as (h & c & sc' & c' & Hh & _ & Hb & _ & E & Hb' & _).
  - unfold routable. cbn. lia.
  - reflexivity.
  - by exists h, c, sc', c'.
Defined.

(** The cache after [Set] of the key [beta], routed to shard 1. *)
Definition sc4_beta : shardedCache Empty_set Z :=
  with_shard sc4 1 (spec_Set 100 (KString "beta") 2 50 (mkCache (-1) ∅)).

Lemma keyed_call_touches_one_shard_witness :
  exists i s,
    bucket sc4 (KString "beta") = Ok (i, s)
    /\ (forall j, j <> i -> cs sc4_beta !! j = cs sc4 !! j)
    /\ seed sc4_beta = seed sc4 /\ m sc4_beta = m sc4.
Proof.
  destruct (keyed_call_touches_one_shard
              (CallSet 100 (KString "beta") 2 50) (KString "beta")
              sc4 sc4_beta OutUnit)
    as (i & s & Hb & _ & _ & Hframe & Hseed & Hm & _).
  - reflexivity.
  - vm_compute. reflexivity.
  - by exists i, s.
Defined.

(** Entries that expire and entries that never do, spread over three of
    the four shards, are all gone after [Flush]. *)
Example flush_populated :
  exists sc,
    exec [ CallSet 100 (KString "alpha") 1 (-1);
           CallSet 100 (KString "gamma") 3 50;
           CallSet 100 (KString "a") 4 0 ] sc4 = Ok sc
    /\ length <$> (map_to_list <$> sc_Items sc) = [1; 1; 0; 1]%nat
    /\ sc_Items (sc_Flush sc) = [∅; ∅; ∅; ∅].
Proof.
  eexists. split; [vm_compute; reflexivity |].
  split; vm_compute; reflexivity.
Qed.

(** * A construction and a run of its janitor *)

(** A world whose strong random source fails, and one where it works;
    [make] allocates up to 2^45 shard pointers in both. *)
Definition world_degraded : World :=
  mkWorld (fun _ _ => None) 0%nat (fun _ => 2463534242) 0%nat [] [] []
    (2 ^ 45).

Definition world_sound : World :=
  mkWorld (fun _ _ => Some 42) 0%nat (fun _ => 2463534242) 0%nat [] [] []
    (2 ^ 45).

(** [sc4] is what [newShardedCache 4 (-1)] builds in [world_sound]. *)
Example sc4_constructed :
  fst <$> (match newShardedCache 4 (-1) world_sound with
           | Ok r => Some r
           | _ => None
           end) = Some sc4.
Proof. vm_compute. reflexivity. Qed.

Lemma newShardedCache_seed_witness :
  exists (sc : shardedCache Empty_set Z) (w' : World),
    newShardedCache 4 (-1) world_degraded = Ok (sc, w')
    /\ rand_reads w' = 1%nat
    /\ seed sc = 2463534242
    /\ stderr w' = [seed_warning]
    /\ insecure_reads w' = 1%nat.
Proof.
  destruct (newShardedCache_seed (Other:=Empty_set) (V:=Z) 4 (-1)
              world_degraded) as (sc & w' & E & Hr & Hs & Herr & Hi);
    [split; vm_compute; discriminate |].
  by exists sc, w'.
Defined.

Lemma janitor_iff_positive_interval_witness :
  exists (sc : shardedCache Empty_set Z) (w' : World),
    unexportedNewSharded 0 1000 4 world_sound = Ok (sc, w')
    /\ janitor sc = Some (mkJanitor 1000 None)
    /\ goroutines w' = [GoRun (mkJanitor 1000 None)]
    /\ finalizers w' = [FinStopShardedJanitor].
Proof.
  destruct (janitor_iff_positive_interval (Other:=Empty_set) (V:=Z)
              0 1000 4 world_sound) as (sc & w' & E & _ & Hpos & _);
    [split; vm_compute; discriminate |].
  destruct Hpos as (Hj & Hg & Hf); [lia |].
  by exists sc, w'.
Defined.

(** The cache [unexportedNewSharded 0 1000 4] returns in [world_sound]. *)
Definition sc_janitor : shardedCache Empty_set Z :=
  mkSharded 42 4 (replicate 4 (mkCache (-1) ∅)) (Some (mkJanitor 1000 None)).

Example sc_janitor_constructed :
  fst <$> (match unexportedNewSharded 0 1000 4 world_sound with
           | Ok r => Some r
           | _ => None
           end) = Some sc_janitor.
Proof. vm_compute. reflexivity. Qed.

(** Two callers of [stopShardedJanitor] and the goroutine of [Run], just
    started. *)
Definition sys_started : system Empty_set Z :=
  mkSystem sc_janitor RunSpawned [SignalCalled; SignalCalled] 0%nat.

(** The first signal was received and [Run] returned; the second caller
    has not sent yet. *)
Definition sys_stopped : system Empty_set Z :=
  mkSystem (set_stop sc_janitor 0%nat) RunReturned
    [SignalReturned; SignalCalled] 1%nat.

(** The first signal to a running janitor is received, and [Run]
    returns. *)
Lemma first_signal_stops : steps sys_started sys_stopped.
Proof.
  eapply steps_step; [apply Run_make |].
  eapply steps_step; [apply (stopShardedJanitor_operand _ _ _ _ 0%nat); reflexivity |].
  eapply steps_step; [|apply steps_refl].
  exact (Run_stop (set_stop sc_janitor 0%nat)
           [SignalSending (Some 0%nat); SignalCalled] 1%nat 0%nat
           (mkJanitor 1000 (Some 0%nat)) 0%nat eq_refl eq_refl eq_refl).
Qed.

(** C10, counterexample. After the janitor of [sc_janitor] has been stopped
    by a first signal, a second call of [stopShardedJanitor] has no run in
    which its send completes: the caller blocks. *)
Lemma second_signal_never_returns :
  steps sys_started sys_stopped
  /\ sys_run sys_stopped = RunReturned
  /\ sys_signals sys_stopped !! 1%nat = Some SignalCalled
  /\ ~ exists s',
         steps sys_stopped s'
         /\ sys_signals s' !! 1%nat = Some SignalReturned.
Proof.
  split; [exact first_signal_stops |]. split; [reflexivity |].
  split; [reflexivity |].
  intros (s' & Hsteps & Hret).
  destruct (steps_after_return _ _ Hsteps eq_refl) as (_ & _ & _ & Hsig).
  apply Hsig in Hret. discriminate.
Qed.

Lemma signal_after_stop_blocks_witness :
  sys_signals
    (mkSystem (set_stop sc_janitor 0%nat) RunReturned
       [SignalReturned; SignalSending (Some 0%nat)] 1%nat) !! 1%nat
  <> Some SignalReturned.
Proof.
  refine (proj1 (signal_after_stop_blocks sys_stopped _ 1%nat
                   eq_refl _ _)); [discriminate |].
  eapply steps_step; [|apply steps_refl].
  exact (stopShardedJanitor_operand (set_stop sc_janitor 0%nat) RunReturned
           [SignalReturned; SignalCalled] 1%nat 1%nat eq_refl).
Defined.

(** * The further properties on the example cache *)

Lemma finish_involution_witness :
  finish (finish 193553417) = 193553417
  /\ (finish 193553417 = finish 5 <-> 193553417 = 5).
Proof. apply (finish_involution 193553417 5); lia. Defined.

Lemma djb33_one_byte_changes_hash_witness :
  djb33 42 (KString "cat1" : string_key)
  <> djb33 42 (KString "cut2" : string_key).
Proof.
  apply (djb33_one_byte_changes_hash 42
           (KString "cat1" : string_key) (KString "cut2")
           ["c"%byte] ["t"%byte] "a"%byte "u"%byte "1"%byte "2"%byte).
  - reflexivity.
  - reflexivity.
  - vm_compute. reflexivity.
  - discriminate.
Defined.

Lemma calls_on_different_shards_commute_witness :
  exists o1 o2 sc1 sc2 sc',
    exec1 (CallSet 100 (KString "beta") 2 50) sc4 = Ok (o1, sc1)
    /\ exec1 (CallAdd 100 (KString "gamma") 3 0) sc1 = Ok (o2, sc')
    /\ exec1 (CallAdd 100 (KString "gamma") 3 0) sc4 = Ok (o2, sc2)
    /\ exec1 (CallSet 100 (KString "beta") 2 50) sc2 = Ok (o1, sc').
Proof.
  apply (calls_on_different_shards_commute
           (CallSet 100 (KString "beta") 2 50)
           (CallAdd 100 (KString "gamma") 3 0)
           "beta" "gamma" sc4
           1%nat 3%nat (mkCache (-1) ∅) (mkCache (-1) ∅)).
  - reflexivity.
  - reflexivity.
  - vm_compute. reflexivity.
  - vm_compute. reflexivity.
  - lia.
Defined.

Lemma constructed_cache_never_panics_witness :
  exists (sc : shardedCache Empty_set Z) w' sc',
    unexportedNewSharded 0 1000 4 world_sound = Ok (sc, w')
    /\ exec calls4 sc = Ok sc'
    /\ seed sc' = seed sc /\ m sc' = 4 /\ length (cs sc') = 4%nat.
Proof.
  apply (constructed_cache_never_panics 0 1000 4 world_sound calls4).
  - lia.
  - vm_compute. discriminate.
  - repeat constructor.
Defined.

(** [world_sound] after the one read of [newShardedCache]. *)
Definition world_sound_read : World := (rand_Int (u64 MaxUint32) world_sound).2.

Lemma constructed_shards_are_empty_witness :
  length (cs sc4) = 4%nat
  /\ Forall (fun c : cache Empty_set Z =>
               items c = ∅ /\ defaultExpiration c <> 0
               /\ (0 <> 0 -> defaultExpiration c = 0)
               /\ (0 = 0 -> defaultExpiration c = -1)) (cs sc4)
  /\ sc_Items sc4 = replicate 4 ∅.
Proof.
  apply (constructed_shards_are_empty 0 0 4 world_sound world_sound_read sc4).
  vm_compute. reflexivity.
Defined.

Lemma signal_before_make_blocks_witness :
  step sys_started
    (mkSystem sc_janitor RunSpawned [SignalSending None; SignalCalled] 0%nat)
  /\ sys_signals
       (mkSystem (set_stop sc_janitor 0%nat) RunSelect
          [SignalSending None; SignalCalled] 1%nat) !! 0%nat
     = Some (SignalSending None).
Proof.
  apply (signal_before_make_blocks sc_janitor RunSpawned
           [SignalCalled; SignalCalled] 0%nat 0%nat (mkJanitor 1000 None)).
  - reflexivity.
  - reflexivity.
  - reflexivity.
  - eapply steps_step; [|apply steps_refl].
    exact (Run_make sc_janitor [SignalSending None; SignalCalled] 0%nat).
Defined.

Lemma at_most_one_signal_returns_witness : 0%nat = 0%nat.
Proof.
  apply (at_most_one_signal_returns sys_started sys_stopped 0%nat 0%nat).
  - discriminate.
  - intros [|[|i]]; discriminate.
  - exact first_signal_stops.
  - reflexivity.
  - reflexivity.
Defined.

Lemma janitor_keeps_routing_witness :
  routable (sys_sc sys_stopped)
  /\ exists i c c',
       bucket (sys_sc sys_started) (KString "beta") = Ok (i, c)
       /\ bucket (sys_sc sys_stopped) (KString "beta") = Ok (i, c').
Proof.
  apply (janitor_keeps_routing sys_started sys_stopped (KString "beta")).
  - unfold routable. cbn. lia.
  - exact first_signal_stops.
Defined.

Lemma signal_can_stop_janitor_witness :
  exists s',
    steps (mkSystem sc_janitor RunSpawned [SignalCalled] 0%nat) s'
    /\ sys_run s' = RunReturned
    /\ sys_signals s' !! 0%nat = Some SignalReturned
    /\ cs (sys_sc s') = cs sc_janitor.
Proof.
  apply (signal_can_stop_janitor sc_janitor [SignalCalled] 0%nat 0%nat
           (mkJanitor 1000 None)); reflexivity.
Defined.
